(** * Upload ingest pipeline: byte sources, bounded consumer, SHA-256,
      MIME sniffing, policy validation and the [ingest] orchestrator.

    A shallow embedding of [src/byte_source.{hpp,cpp}], [src/ingest.{hpp,cpp}]
    and of the test doubles of [test/test.cpp].

    Conventions.
    - [size_t] and [uint64_t] values are [N]; every addition the C++ code
      performs on them is followed by its wrap-around [mod 2^64].
    - [int64_t] values are [Z]; [uint32_t] words are [Z] kept in [0, 2^32).
    - [uint8_t] is [Byte.byte]; [char] is [ascii]; [std::string] is [string];
      [std::vector<uint8_t>] is [list byte].
    - A method that mutates its object takes the object's state and returns
      the new one; a caller-provided output buffer is passed in and returned.
    - [throw] is a [Throws] completion; loops that may run forever take fuel
      and answer [None] when it runs out. *)

From Stdlib Require Import ZArith NArith Bool Lia.
From Stdlib Require Import Strings.Ascii Strings.String Strings.Byte.
From stdpp Require Import base list strings.

Local Open Scope N_scope.

(** ** Machine integers *)

Definition size_t_bits : N := 64.
Definition size_t_modulus : N := 2 ^ size_t_bits.
(** [numeric_limits<size_t>::max()] *)
Definition size_t_max : N := size_t_modulus - 1.
(** [numeric_limits<int64_t>::max()] *)
Definition int64_max : Z := (2 ^ 63 - 1)%Z.

(** Result of an arithmetic operation stored in a [size_t]. *)
Definition wrap_size (n : N) : N := n mod size_t_modulus.

(** [static_cast<size_t>] of an [int64_t]: the value modulo 2^64, so a
    negative [z] becomes [2^64 + z]. *)
Definition size_t_of_int64 (z : Z) : N := Z.to_N (z mod Z.of_N size_t_modulus).

(** [v.size()] of a vector or string that holds the elements of [l]. *)
Definition size {A : Type} (l : list A) : N := N.of_nat (length l).

(** [memcpy(dst, src, n)]: the first [n] bytes of [dst] become the first [n]
    bytes of [src]; the rest of [dst] is untouched. *)
Definition memcpy (dst src : list byte) (n : N) : list byte :=
  take (N.to_nat n) src ++ drop (N.to_nat n) dst.

(** ** Exceptions and completions *)

Inductive Exception : Type :=
| SourceFailure (what : string)   (* thrown by a [ByteSource::read] *)
| BufferCeiling                   (* consumeToBuffer, byte_source.cpp:27 *)
| SizeRange                       (* ingest, ingest.cpp:257 *)
| SinkFailure (what : string).    (* thrown by an [IngestSink::persist] *)

Definition what (e : Exception) : string :=
  match e with
  | SourceFailure w => w
  | BufferCeiling => "byte source exceeds buffer ceiling"
  | SizeRange => "payload size exceeds supported range"
  | SinkFailure w => w
  end.

Inductive Completion (A : Type) : Type :=
| Returns (a : A)
| Throws (e : Exception).
Arguments Returns {A} a.
Arguments Throws {A} e.

(** ** byte_source.hpp: the [ByteSource] interface *)

(** Outcome of one [read(buffer, maxLen)] call: the count returned, the
    caller's buffer after the call and the source after the call; or an
    exception. *)
Inductive ReadResult (Src : Type) : Type :=
| ReadOk (readCount : N) (buffer' : list byte) (src' : Src)
| ReadThrows (what : string) (src' : Src).
Arguments ReadOk {Src} readCount buffer' src'.
Arguments ReadThrows {Src} what src'.

Class ByteSource (Src : Type) : Type :=
  read : Src -> list byte -> N -> ReadResult Src.

(** ** ingest.cpp:24-42: [VectorByteSource] *)

Module VectorByteSource.

(** [data_] is a reference to a vector that nobody mutates while the
    source lives, so the record holds its contents. *)
Record t : Type := mk { data_ : list byte; offset_ : N }.

(** The constructor: [offset_(0)]. *)
Definition make (data : list byte) : t := mk data 0.

Definition read (v : t) (buffer : list byte) (maxLen : N)
  : N * list byte * t :=
  if (size (data_ v) <=? offset_ v) || (maxLen =? 0) then
    (0, buffer, v)
  else
    let remaining := size (data_ v) - offset_ v in
    let toCopy := if remaining <? maxLen then remaining else maxLen in
    let buffer' := memcpy buffer (drop (N.to_nat (offset_ v)) (data_ v)) toCopy in
    (toCopy, buffer', mk (data_ v) (wrap_size (offset_ v + toCopy))).

End VectorByteSource.

#[export] Instance VectorByteSource_ByteSource : ByteSource VectorByteSource.t :=
  fun v buffer maxLen =>
    let '(n, buffer', v') := VectorByteSource.read v buffer maxLen in
    ReadOk n buffer' v'.

(** ** test.cpp:20-40: [MemoryByteSource], which owns its vector *)

Module MemoryByteSource.

Record t : Type := mk { data_ : list byte; offset_ : N }.

Definition make (data : list byte) : t := mk data 0.

Definition read (m : t) (buffer : list byte) (maxLen : N)
  : N * list byte * t :=
  if (size (data_ m) <=? offset_ m) || (maxLen =? 0) then
    (0, buffer, m)
  else
    let remaining := size (data_ m) - offset_ m in
    let toCopy := if remaining <? maxLen then remaining else maxLen in
    let buffer' := memcpy buffer (drop (N.to_nat (offset_ m)) (data_ m)) toCopy in
    (toCopy, buffer', mk (data_ m) (wrap_size (offset_ m + toCopy))).

(** [size() const] *)
Definition size (m : t) : N := size (data_ m).

End MemoryByteSource.

#[export] Instance MemoryByteSource_ByteSource : ByteSource MemoryByteSource.t :=
  fun m buffer maxLen =>
    let '(n, buffer', m') := MemoryByteSource.read m buffer maxLen in
    ReadOk n buffer' m'.

(** ** byte_source.cpp:13-31: [consumeToBuffer] *)

(** [scratch.size()], 64 KiB. *)
Definition scratch_size : N := 64 * 1024.

Section Consumer.
Context {Src : Type} `{ByteSource Src}.

(** The [while (true)] loop, with the locals it updates. *)
Fixpoint consumeLoop (fuel : nat) (src : Src) (maxBytes : N)
         (data scratch : list byte) (total : N)
  : option (Completion (list byte) * Src) :=
  match fuel with
  | O => None
  | S fuel' =>
      match read src scratch scratch_size with
      | ReadThrows w src' => Some (Throws (SourceFailure w), src')
      | ReadOk readCount scratch' src' =>
          if readCount =? 0 then Some (Returns data, src')
          else
            let total' := wrap_size (total + readCount) in
            if maxBytes <? total' then Some (Throws BufferCeiling, src')
            else consumeLoop fuel' src' maxBytes
                   (data ++ take (N.to_nat readCount) scratch') scratch' total'
      end
  end.

(** [data.reserve] changes capacity only, so it does not appear;
    [scratch{}] is value-initialised to zeros. *)
Definition consumeToBuffer (fuel : nat) (src : Src) (maxBytes : N)
  : option (Completion (list byte) * Src) :=
  consumeLoop fuel src maxBytes [] (replicate (N.to_nat scratch_size) x00) 0.

End Consumer.

(** ** ingest.cpp:44-116: SHA-256 utilities *)

Local Open Scope Z_scope.

(** A value stored in a [uint32_t]. *)
Definition u32 (z : Z) : Z := z mod 2 ^ 32.

(** [static_cast<uint32_t>(b)] of a [uint8_t]. *)
Definition byte_to_Z (b : byte) : Z := Z.of_N (Byte.to_N b).

(** [static_cast<uint8_t>(n)]. *)
Definition byte_of_N (n : N) : byte :=
  match Byte.of_N (n mod 256)%N with
  | Some b => b
  | None => x00
  end.

#[export] Instance byte_inhabited : Inhabited byte := populate x00.

(** [for (i = start; i < start + count; ++i) st = body(i, st)] *)
Fixpoint for_range {St : Type} (start count : nat)
         (body : nat -> St -> St) (st : St) : St :=
  match count with
  | O => st
  | S count' => for_range (S start) count' body (body start st)
  end.

Definition kSha256K : list Z :=
  [ u32 0x428a2f98; u32 0x71374491; u32 0xb5c0fbcf; u32 0xe9b5dba5;
    u32 0x3956c25b; u32 0x59f111f1; u32 0x923f82a4; u32 0xab1c5ed5;
    u32 0xd807aa98; u32 0x12835b01; u32 0x243185be; u32 0x550c7dc3;
    u32 0x72be5d74; u32 0x80deb1fe; u32 0x9bdc06a7; u32 0xc19bf174;
    u32 0xe49b69c1; u32 0xefbe4786; u32 0x0fc19dc6; u32 0x240ca1cc;
    u32 0x2de92c6f; u32 0x4a7484aa; u32 0x5cb0a9dc; u32 0x76f988da;
    u32 0x983e5152; u32 0xa831c66d; u32 0xb00327c8; u32 0xbf597fc7;
    u32 0xc6e00bf3; u32 0xd5a79147; u32 0x06ca6351; u32 0x14292967;
    u32 0x27b70a85; u32 0x2e1b2138; u32 0x4d2c6dfc; u32 0x53380d13;
    u32 0x650a7354; u32 0x766a0abb; u32 0x81c2c92e; u32 0x92722c85;
    u32 0xa2bfe8a1; u32 0xa81a664b; u32 0xc24b8b70; u32 0xc76c51a3;
    u32 0xd192e819; u32 0xd6990624; u32 0xf40e3585; u32 0x106aa070;
    u32 0x19a4c116; u32 0x1e376c08; u32 0x2748774c; u32 0x34b0bcb5;
    u32 0x391c0cb3; u32 0x4ed8aa4a; u32 0x5b9cca4f; u32 0x682e6ff3;
    u32 0x748f82ee; u32 0x78a5636f; u32 0x84c87814; u32 0x8cc70208;
    u32 0x90befffa; u32 0xa4506ceb; u32 0xbef9a3f7; u32 0xc67178f2 ].

Definition rotr (value bits : Z) : Z :=
  Z.lor (Z.shiftr value bits) (u32 (Z.shiftl value (32 - bits))).

Definition sha256StateInit : list Z :=
  [ u32 0x6a09e667; u32 0xbb67ae85; u32 0x3c6ef372; u32 0xa54ff53a;
    u32 0x510e527f; u32 0x9b05688c; u32 0x1f83d9ab; u32 0x5be0cd19 ].

(** The eight working variables [a .. h] of the round loop. *)
Record Working : Type :=
  mkWorking { wa : Z; wb : Z; wc : Z; wd : Z; we : Z; wf : Z; wg : Z; wh : Z }.

(** Body of the first loop: [w[i]] from four bytes of the block. *)
Definition sha256LoadWord (block : list byte) (i : nat) (w : list Z) : list Z :=
  <[ i := Z.lor (Z.lor (Z.lor
            (u32 (Z.shiftl (byte_to_Z (block !!! (i * 4)%nat)) 24))
            (u32 (Z.shiftl (byte_to_Z (block !!! (i * 4 + 1)%nat)) 16)))
            (u32 (Z.shiftl (byte_to_Z (block !!! (i * 4 + 2)%nat)) 8)))
            (byte_to_Z (block !!! (i * 4 + 3)%nat)) ]> w.

(** Body of the second loop: the message schedule. *)
Definition sha256ExtendWord (i : nat) (w : list Z) : list Z :=
  let w15 := w !!! (i - 15)%nat in
  let w2 := w !!! (i - 2)%nat in
  let s0 := Z.lxor (Z.lxor (rotr w15 7) (rotr w15 18)) (Z.shiftr w15 3) in
  let s1 := Z.lxor (Z.lxor (rotr w2 17) (rotr w2 19)) (Z.shiftr w2 10) in
  <[ i := u32 (w !!! (i - 16)%nat + s0 + w !!! (i - 7)%nat + s1) ]> w.

(** Body of the third loop: one compression round. *)
Definition sha256Round (w : list Z) (i : nat) (v : Working) : Working :=
  let S1 := Z.lxor (Z.lxor (rotr (we v) 6) (rotr (we v) 11)) (rotr (we v) 25) in
  let ch := Z.lxor (Z.land (we v) (wf v)) (Z.land (u32 (Z.lnot (we v))) (wg v)) in
  let temp1 := u32 (wh v + S1 + ch + kSha256K !!! i + w !!! i) in
  let S0 := Z.lxor (Z.lxor (rotr (wa v) 2) (rotr (wa v) 13)) (rotr (wa v) 22) in
  let maj := Z.lxor (Z.lxor (Z.land (wa v) (wb v)) (Z.land (wa v) (wc v)))
                    (Z.land (wb v) (wc v)) in
  let temp2 := u32 (S0 + maj) in
  {| wh := wg v; wg := wf v; wf := we v; we := u32 (wd v + temp1);
     wd := wc v; wc := wb v; wb := wa v; wa := u32 (temp1 + temp2) |}.

(** [block] stands for the 64 bytes the pointer argument points to. *)
Definition sha256ProcessBlock (state : list Z) (block : list byte) : list Z :=
  let w := replicate 64 0 in
  let w := for_range 0 16 (sha256LoadWord block) w in
  let w := for_range 16 48 sha256ExtendWord w in
  let v := {| wa := state !!! 0%nat; wb := state !!! 1%nat;
              wc := state !!! 2%nat; wd := state !!! 3%nat;
              we := state !!! 4%nat; wf := state !!! 5%nat;
              wg := state !!! 6%nat; wh := state !!! 7%nat |} in
  let v := for_range 0 64 (sha256Round w) v in
  [ u32 (state !!! 0%nat + wa v); u32 (state !!! 1%nat + wb v);
    u32 (state !!! 2%nat + wc v); u32 (state !!! 3%nat + wd v);
    u32 (state !!! 4%nat + we v); u32 (state !!! 5%nat + wf v);
    u32 (state !!! 6%nat + wg v); u32 (state !!! 7%nat + wh v) ].

(** ** ingest.cpp:121-154: [sha256Hex] *)

Definition blockSize : N := 64.

(** The [while (processed + blockSize <= data.size())] loop; each turn
    advances [processed], so [length data] turns of fuel are never used up. *)
Fixpoint sha256Blocks (fuel : nat) (data : list byte) (state : list Z)
         (processed : N) : list Z * N :=
  match fuel with
  | O => (state, processed)
  | S fuel' =>
      if (wrap_size (processed + blockSize) <=? size data)%N then
        sha256Blocks fuel' data
          (sha256ProcessBlock state (drop (N.to_nat processed) data))
          (wrap_size (processed + blockSize))
      else (state, processed)
  end.

(** One lower-case hexadecimal digit, as [std::hex] prints it. *)
Definition hexDigit (d : Z) : ascii :=
  match String.get (Z.to_nat d) "0123456789abcdef" with
  | Some c => c
  | None => "0"%char
  end.

(** The digits of [n] in base 16, most significant first, no leading zero
    (a single "0" for zero); [fuel] bounds the number of digits. *)
Fixpoint hexDigits (fuel : nat) (n : Z) (acc : list ascii) : list ascii :=
  match fuel with
  | O => acc
  | S fuel' =>
      let acc' := hexDigit (n mod 16) :: acc in
      if n / 16 =? 0 then acc' else hexDigits fuel' (n / 16) acc'
  end.

(** [oss << setw(8) << word] under [hex] and [setfill('0')]: the digits,
    padded on the left up to the field width. *)
Definition putHexWord (word : Z) : list ascii :=
  let digits := hexDigits 16 word [] in
  replicate (8 - length digits) "0"%char ++ digits.

Definition sha256Hex (data : list byte) : string :=
  let state := sha256StateInit in
  let bitLength := ((size data * 8) mod 2 ^ 64)%N in
  let '(state, processed) := sha256Blocks (length data) data state 0%N in
  let finalBlock := replicate 128 x00 in
  let remaining := (size data - processed)%N in
  let finalBlock := memcpy finalBlock (drop (N.to_nat processed) data) remaining in
  let finalBlock := <[ N.to_nat remaining := x80 ]> finalBlock in
  let paddingIndex :=
    (if remaining + 9 <=? blockSize then blockSize - 8 else 2 * blockSize - 8)%N in
  let finalBlock :=
    for_range 0 8
      (fun i fb =>
         <[ (N.to_nat paddingIndex + i)%nat :=
              byte_of_N (N.land (N.shiftr bitLength (56 - N.of_nat i * 8)) 0xFF) ]> fb)
      finalBlock in
  let state := sha256ProcessBlock state finalBlock in
  let state :=
    if negb (paddingIndex =? blockSize - 8)%N
    then sha256ProcessBlock state (drop (N.to_nat blockSize) finalBlock)
    else state in
  string_of_list_ascii (concat (map putHexWord state)).

(** ** ingest.cpp:156-183: [detectMime] *)

Local Open Scope string_scope.

(** [std::equal(first1, last1, first2)]: every element of the first range
    against the element of the second range at the same position. *)
Fixpoint equal (range1 range2 : list byte) : bool :=
  match range1 with
  | [] => true
  | x :: range1' =>
      match range2 with
      | [] => false
      | y :: range2' => Byte.eqb x y && equal range1' range2'
      end
  end.

(** [haystack.find(needle)] of [std::string]: the position of the first
    occurrence; [None] is [npos]. *)
Fixpoint find (haystack needle : string) : option nat :=
  if String.prefix needle haystack then Some O
  else
    match haystack with
    | EmptyString => None
    | String _ haystack' => option_map S (find haystack' needle)
    end.

Definition pngMagic : list byte := [x89; x50; x4e; x47; x0d; x0a; x1a; x0a].

Definition detectMime (bytes : list byte) : string :=
  if (4 <=? size bytes)%N
     && (Byte.eqb (bytes !!! 0%nat) "%"%byte && Byte.eqb (bytes !!! 1%nat) "P"%byte
         && Byte.eqb (bytes !!! 2%nat) "D"%byte && Byte.eqb (bytes !!! 3%nat) "F"%byte)
  then "application/pdf"
  else if (8 <=? size bytes)%N && equal pngMagic bytes
  then "image/png"
  else if (4 <=? size bytes)%N
     && (Byte.eqb (bytes !!! 0%nat) "P"%byte && Byte.eqb (bytes !!! 1%nat) "K"%byte
         && Byte.eqb (bytes !!! 2%nat) x03 && Byte.eqb (bytes !!! 3%nat) x04)
     && (let signature :=
           string_of_list_byte (take (N.to_nat (N.min (size bytes) 4096)) bytes) in
         match find signature "word/" with
         | Some _ => true
         | None =>
             match find signature "[Content_Types].xml" with
             | Some _ => true
             | None => false
             end
         end)
  then "application/vnd.openxmlformats-officedocument.wordprocessingml.document"
  else "application/octet-stream".

(** ** ingest.cpp:185-215: MIME string comparison *)

(** [isspace] in the "C" locale: space, and horizontal tab to carriage
    return. *)
Definition isspace (ch : ascii) : bool :=
  let n := N_of_ascii ch in
  ((n =? 32) || ((9 <=? n) && (n <=? 13)))%N.

(** [tolower] in the "C" locale. *)
Definition tolower (ch : ascii) : ascii :=
  let n := N_of_ascii ch in
  if ((65 <=? n) && (n <=? 90))%N then ascii_of_N (n + 32) else ch.

(** [s.find(ch)] for a character; [None] is [npos]. *)
Fixpoint find_char (s : list ascii) (ch : ascii) : option nat :=
  match s with
  | [] => None
  | c :: s' =>
      if Ascii.eqb c ch then Some O
      else option_map S (find_char s' ch)
  end.

(** [s.substr(0, count)], where [count] may be [npos]. *)
Definition substr0 (s : list ascii) (count : option nat) : list ascii :=
  match count with
  | Some n => take n s
  | None => s
  end.

(** [std::find_if(first, last, pred)] as a distance from [first]; the length
    of the range when no element satisfies [pred]. *)
Fixpoint find_if (range : list ascii) (pred : ascii -> bool) : nat :=
  match range with
  | [] => O
  | c :: range' => if pred c then O else S (find_if range' pred)
  end.

Definition stripMime (mime : string) : string :=
  let mime := list_ascii_of_string mime in
  let semi := find_char mime ";"%char in
  let base := substr0 mime semi in
  let notSpace := fun ch => negb (isspace ch) in
  (* erase [begin, first non-space) *)
  let base := drop (find_if base notSpace) base in
  (* erase [one past the last non-space, end) *)
  let base := take (length base - find_if (rev base) notSpace) base in
  let base := map tolower base in
  string_of_list_ascii base.

Definition equalsIgnoreParams (lhs rhs : string) : bool :=
  String.eqb (stripMime lhs) (stripMime rhs).

Fixpoint isAcceptedMime (detected : string) (accepted : list string) : bool :=
  match accepted with
  | [] => false
  | candidate :: accepted' =>
      if equalsIgnoreParams detected candidate then true
      else isAcceptedMime detected accepted'
  end.

(** ** ingest.hpp: the data model *)

Record UploadMeta : Type := mkUploadMeta {
  filename : string;
  claimedMime : string;
  hasContentLength : bool;
  contentLength : Z
}.

Record IngestConfig : Type := mkIngestConfig {
  maxContentLength : Z;
  acceptedMimes : list string
}.

Record IngestResult : Type := mkIngestResult {
  detectedMime : string;
  size_ : Z;
  sha256 : string;
  ok : bool;
  errors : list string
}.

(** [IngestSink::persist]. [ingest] is its only caller and hands it a
    [VectorByteSource], so [persist] is taken at that type.  [None] is a
    [persist] that never returns. *)
Class IngestSink (Snk : Type) : Type :=
  persist : UploadMeta -> IngestResult -> VectorByteSource.t -> Snk ->
            option (Completion unit * Snk).

(** ** ingest.cpp:217-244: the validator *)

(** [s.empty()] *)
Definition empty {A : Type} (l : list A) : bool :=
  match l with [] => true | _ => false end.
Definition string_empty (s : string) : bool :=
  match s with EmptyString => true | _ => false end.

(** [errors.emplace_back(message)] *)
Definition emplace_back (errors : list string) (message : string) : list string :=
  (errors ++ [message])%list.

Definition validateLengths (meta : UploadMeta) (size maxContentLength : Z)
           (errors : list string) : list string :=
  let errors :=
    if hasContentLength meta then
      if (contentLength meta <? 0)%Z then emplace_back errors "contentLength is negative"
      else if negb (size =? contentLength meta)%Z then emplace_back errors "contentLength mismatch"
      else errors
    else errors in
  if (0 <=? maxContentLength)%Z && (maxContentLength <? size)%Z
  then emplace_back errors "exceeds maxContentLength"
  else errors.

Definition validateMime (meta : UploadMeta) (detected : string)
           (accepted : list string) (errors : list string) : list string :=
  let errors :=
    if negb (string_empty (claimedMime meta))
       && negb (equalsIgnoreParams (claimedMime meta) detected)
    then emplace_back errors "claimedMime does not match detectedMime"
    else errors in
  if negb (empty accepted) && negb (isAcceptedMime detected accepted)
  then emplace_back errors "detectedMime not accepted"
  else errors.

(** ** ingest.cpp:253-272: [ingest] *)

(** One invocation of the sink, as [ingest] made it. *)
Record SinkCall : Type := mkSinkCall {
  call_meta : UploadMeta;
  call_result : IngestResult;
  call_data : VectorByteSource.t
}.

(** What a run of [ingest] leaves behind: how it completed, the source and
    the sink after the run, and the sink invocations in order. *)
Record IngestRun (Src Snk : Type) : Type := mkIngestRun {
  completion : Completion unit;
  source_after : Src;
  sink_after : Snk;
  calls : list SinkCall
}.
Arguments mkIngestRun {Src Snk}.
Arguments completion {Src Snk}.
Arguments source_after {Src Snk}.
Arguments sink_after {Src Snk}.
Arguments calls {Src Snk}.

Section Ingest.
Context {Src Snk : Type} `{ByteSource Src} `{IngestSink Snk}.

Definition ingest (fuel : nat) (meta : UploadMeta) (cfg : IngestConfig)
           (source : Src) (sink : Snk) : option (IngestRun Src Snk) :=
  match consumeToBuffer fuel source size_t_max with
  | None => None
  | Some (Throws e, source') => Some (mkIngestRun (Throws e) source' sink [])
  | Some (Returns buffer, source') =>
      if (Z.to_N int64_max <? size buffer)%N then
        Some (mkIngestRun (Throws SizeRange) source' sink [])
      else
        let size := Z.of_N (size buffer) in
        let detectedMime := detectMime buffer in
        let sha256 := sha256Hex buffer in
        let errors := validateLengths meta size (maxContentLength cfg) [] in
        let errors := validateMime meta detectedMime (acceptedMimes cfg) errors in
        let result :=
          {| detectedMime := detectedMime; size_ := size; sha256 := sha256;
             ok := empty errors; errors := errors |} in
        let replay := VectorByteSource.make buffer in
        match persist meta result replay sink with
        | None => None
        | Some (c, sink') =>
            Some (mkIngestRun c source' sink' [mkSinkCall meta result replay])
        end
  end.

End Ingest.

(** ** test.cpp:76-95: [RecordingSink] *)

Module RecordingSink.

Record t : Type := mk {
  lastMeta : UploadMeta;
  lastResult : IngestResult;
  forwarded : list byte;
  forwardedBytes : N
}.

(** A sink nobody has called: empty strings and vectors,
    [forwardedBytes{0}]; the scalar members are indeterminate in C++ and
    are overwritten before they are read. *)
Definition initial : t :=
  mk (mkUploadMeta "" "" false 0) (mkIngestResult "" 0 "" false []) [] 0.

Section Persist.
Context {D : Type} `{ByteSource D}.

(** The [while (true)] loop over [data.read(buffer, sizeof(buffer))]. *)
Fixpoint persistLoop (fuel : nat) (data : D) (buffer forwarded : list byte)
         (forwardedBytes : N)
  : option (Completion unit * (list byte * N)) :=
  match fuel with
  | O => None
  | S fuel' =>
      match read data buffer 4096%N with
      | ReadThrows w _ =>
          Some (Throws (SourceFailure w), (forwarded, forwardedBytes))
      | ReadOk n buffer' data' =>
          if (n =? 0)%N then Some (Returns tt, (forwarded, forwardedBytes))
          else persistLoop fuel' data' buffer'
                 (forwarded ++ take (N.to_nat n) buffer')%list
                 (wrap_size (forwardedBytes + n))
      end
  end.

Definition persist (fuel : nat) (meta : UploadMeta) (result : IngestResult)
           (data : D) (sink : t) : option (Completion unit * t) :=
  match persistLoop fuel data (replicate 4096 x00) [] 0%N with
  | None => None
  | Some (c, (forwarded, forwardedBytes)) =>
      Some (c, mk meta result forwarded forwardedBytes)
  end.

End Persist.

End RecordingSink.

(** A replay source over [n] bytes is drained by the 4096-byte reads of
    [RecordingSink::persist] in at most [n + 1] turns. *)
#[export] Instance RecordingSink_IngestSink : IngestSink RecordingSink.t :=
  fun meta result data sink =>
    RecordingSink.persist
      (S (length (VectorByteSource.data_ data))) meta result data sink.

(** test.cpp:103-107 *)
Definition forwardedMatches (sink : RecordingSink.t) (expectedBytes : N) : bool :=
  ((RecordingSink.forwardedBytes sink =? expectedBytes)
   && (size (RecordingSink.forwarded sink) =? expectedBytes)
   && (size_t_of_int64 (size_ (RecordingSink.lastResult sink)) =? expectedBytes))%N.

(** test.cpp:99-101 *)
Definition containsError (result : IngestResult) (message : string) : bool :=
  existsb (String.eqb message) (errors result).

(** * Specification-level definitions

    The notions the properties below are stated with.  None of them is used
    by the model of the code above. *)

(** ** Reading a source to its end *)

Section ReadsSpec.
Context {Src : Type} `{ByteSource Src}.

(** [Reads maxLen src buffer rs src' buffer']: calling [read] over and over
    with the same buffer and the same [maxLen], starting from [src], gives
    the non-zero reads [rs] in order, each recorded as the count returned
    with the buffer after the call, and leaves the source in [src']. *)
Inductive Reads (maxLen : N) : Src -> list byte -> list (N * list byte) ->
                             Src -> list byte -> Prop :=
| Reads_nil src buffer : Reads maxLen src buffer [] src buffer
| Reads_cons src buffer n buffer1 src1 rs src2 buffer2 :
    read src buffer maxLen = ReadOk n buffer1 src1 ->
    n <> 0%N ->
    Reads maxLen src1 buffer1 rs src2 buffer2 ->
    Reads maxLen src buffer ((n, buffer1) :: rs) src2 buffer2.

(** The next read reports end of stream. *)
Definition AtEof (maxLen : N) (src : Src) (buffer : list byte) (src' : Src) : Prop :=
  exists buffer', read src buffer maxLen = ReadOk 0%N buffer' src'.

(** The next read fails. *)
Definition AtFailure (maxLen : N) (src : Src) (buffer : list byte)
           (w : string) (src' : Src) : Prop :=
  read src buffer maxLen = ReadThrows w src'.

End ReadsSpec.

(** The bytes one read yielded: the first [n] bytes of the buffer. *)
Definition chunk_of (r : N * list byte) : list byte := take (N.to_nat r.1) r.2.

(** All bytes yielded by a sequence of reads, in order. *)
Definition bytes_of (rs : list (N * list byte)) : list byte :=
  concat (map chunk_of rs).

(** The running total after a sequence of reads, as a mathematical integer. *)
Definition total_of (rs : list (N * list byte)) : N :=
  foldr (fun r acc => (r.1 + acc)%N) 0%N rs.

(** The zero-initialised scratch array of [consumeToBuffer]. *)
Definition scratch0 : list byte := replicate (N.to_nat scratch_size) x00.

Section ConsumeSpec.
Context {Src : Type} `{ByteSource Src}.

(** What a finished run says about the source, for a run whose totals fit in
    a [size_t]. *)
Definition consume_outcome (src0 : Src) (maxBytes : N)
           (c : Completion (list byte)) (src' : Src) : Prop :=
  match c with
  | Returns buffer =>
      exists rs src1 scratch1,
        Reads scratch_size src0 scratch0 rs src1 scratch1
        /\ AtEof scratch_size src1 scratch1 src'
        /\ (total_of rs <= maxBytes)%N
        /\ buffer = bytes_of rs
  | Throws BufferCeiling =>
      exists rs src1 scratch1 n scratch2,
        Reads scratch_size src0 scratch0 rs src1 scratch1
        /\ read src1 scratch1 scratch_size = ReadOk n scratch2 src'
        /\ (total_of rs <= maxBytes < total_of rs + n)%N
  | Throws (SourceFailure w) =>
      exists rs src1 scratch1,
        Reads scratch_size src0 scratch0 rs src1 scratch1
        /\ AtFailure scratch_size src1 scratch1 w src'
        /\ (total_of rs <= maxBytes)%N
  | Throws _ => False
  end.

End ConsumeSpec.

(** ** The in-memory source *)

(** A claim of the interface contract read literally: a zero return means
    that the whole backing sequence has been yielded. *)
Definition zero_only_at_eof (v : VectorByteSource.t) (buffer : list byte)
           (maxLen : N) : Prop :=
  (VectorByteSource.read v buffer maxLen).1.1 = 0%N ->
  (size (VectorByteSource.data_ v) <= VectorByteSource.offset_ v)%N.

(** A client that calls [read] once per element of [maxLens], reusing one
    buffer; it collects what each call returned. *)
Fixpoint readCalls (v : VectorByteSource.t) (buffer : list byte)
         (maxLens : list N) : list (N * list byte) * VectorByteSource.t :=
  match maxLens with
  | [] => ([], v)
  | maxLen :: maxLens' =>
      let '(n, buffer', v') := VectorByteSource.read v buffer maxLen in
      let '(rs, v'') := readCalls v' buffer' maxLens' in
      ((n, buffer') :: rs, v'')
  end.

(** ** SHA-256 as the standard defines it (FIPS 180-4, sections 5.1.1, 5.2.1
       and 6.2), over the compression function of the code *)

(** The bit length as a 64-bit big-endian integer, eight bytes. *)
Definition be64 (n : N) : list byte :=
  map (fun i : nat => byte_of_N (n / 256 ^ (7 - N.of_nat i))%N) (seq 0 8).

(** The padded message: the message, one byte 0x80, the least number of zero
    bytes that brings the length to 56 modulo 64, and the bit length. *)
Definition sha256_pad (msg : list byte) : list byte :=
  let zeros := Z.to_nat ((55 - Z.of_nat (length msg)) mod 64)%Z in
  (msg ++ x80 :: replicate zeros x00 ++ be64 (8 * size msg))%list.

(** The hash state after the first [n] 64-byte blocks of [msg]. *)
Fixpoint sha256_blocks (n : nat) (msg : list byte) (state : list Z) : list Z :=
  match n with
  | O => state
  | S n' => sha256_blocks n' (drop 64 msg) (sha256ProcessBlock state (take 64 msg))
  end.

(** The eight words of the digest. *)
Definition sha256_digest (msg : list byte) : list Z :=
  let padded := sha256_pad msg in
  sha256_blocks (length padded / 64) padded sha256StateInit.

(** A byte as two lower-case hexadecimal digits. *)
Definition hex_of_octet (z : Z) : list ascii :=
  [hexDigit (z / 16 mod 16); hexDigit (z mod 16)]%Z.

(** A 32-bit word as its four bytes, most significant first, in hex. *)
Definition hex_of_word (word : Z) : list ascii :=
  (hex_of_octet (word / 2 ^ 24 mod 256) ++ hex_of_octet (word / 2 ^ 16 mod 256)
   ++ hex_of_octet (word / 2 ^ 8 mod 256) ++ hex_of_octet (word mod 256))%list%Z.

(** The values a [uint32_t] can hold. *)
Definition is_u32 (z : Z) : Prop := (0 <= z < 2 ^ 32)%Z.

(** The [k] low hexadecimal digits of [n], most significant first. *)
Fixpoint nibbles (k : nat) (n : Z) : list ascii :=
  match k with
  | O => []
  | S k' => (nibbles k' (n / 16) ++ [hexDigit (n mod 16)])%list
  end.

Definition sha256_reference (msg : list byte) : string :=
  string_of_list_ascii (concat (map hex_of_word (sha256_digest msg))).

(** The characters of lower-case hexadecimal. *)
Definition is_lower_hex (c : ascii) : bool :=
  existsb (Ascii.eqb c) (list_ascii_of_string "0123456789abcdef").

(** ** Type sniffing *)

(** [needle] occurs in [haystack] as a run of consecutive elements. *)
Definition Occurs {A : Type} (needle haystack : list A) : Prop :=
  exists before after, haystack = (before ++ needle ++ after)%list.

Definition pdfSignature : list byte := list_byte_of_string "%PDF".
Definition pngSignature : list byte := [x89; x50; x4e; x47; x0d; x0a; x1a; x0a].
Definition zipSignature : list byte := [x50; x4b; x03; x04].

(** The part of a buffer the container scan looks at. *)
Definition scanned (bytes : list byte) : list byte :=
  take (Nat.min (length bytes) 4096) bytes.

(** A ZIP container that names a word-processing part. *)
Definition IsWordContainer (bytes : list byte) : Prop :=
  zipSignature `prefix_of` bytes /\
  (Occurs (list_byte_of_string "word/") (scanned bytes) \/
   Occurs (list_byte_of_string "[Content_Types].xml") (scanned bytes)).

(** ** The policy comparator, after the words of the specification *)

(** Everything from the first [;] onward is discarded. *)
Fixpoint discard_params (s : list ascii) : list ascii :=
  match s with
  | [] => []
  | c :: s' => if Ascii.eqb c ";"%char then [] else c :: discard_params s'
  end.

(** White space: space, tab, line feed, vertical tab, form feed, carriage
    return. *)
Definition whitespace : list ascii :=
  [" "%char; "009"%char; "010"%char; "011"%char; "012"%char; "013"%char].

Definition is_whitespace (c : ascii) : bool := existsb (Ascii.eqb c) whitespace.

Fixpoint trim_leading (s : list ascii) : list ascii :=
  match s with
  | [] => []
  | c :: s' => if is_whitespace c then trim_leading s' else s
  end.

Definition trim (s : list ascii) : list ascii :=
  rev (trim_leading (rev (trim_leading s))).

(** Case folding of the 26 letters. *)
Definition upper_lower : list (ascii * ascii) :=
  zip (list_ascii_of_string "ABCDEFGHIJKLMNOPQRSTUVWXYZ")
      (list_ascii_of_string "abcdefghijklmnopqrstuvwxyz").

Definition fold_case (c : ascii) : ascii :=
  match List.find (fun p => Ascii.eqb (fst p) c) upper_lower with
  | Some p => snd p
  | None => c
  end.

Definition normalise (s : string) : string :=
  string_of_list_ascii (map fold_case (trim (discard_params (list_ascii_of_string s)))).

(** [stripMime] between its two conversions: the same steps on the list of
    characters. *)
Definition strip_chars (mime : list ascii) : list ascii :=
  let semi := find_char mime ";"%char in
  let base := substr0 mime semi in
  let notSpace := fun ch => negb (isspace ch) in
  let base := drop (find_if base notSpace) base in
  let base := take (length base - find_if (rev base) notSpace) base in
  map tolower base.

(** A string that does not begin with white space. *)
Definition starts_clean (l : list ascii) : Prop :=
  match l with
  | [] => True
  | c :: _ => isspace c = false
  end.

(** What [stripMime] leaves: no parameter separator, no white space at
    either end, no upper-case letter. *)
Definition is_stripped (l : list ascii) : Prop :=
(";"%char ∉ l) /\ starts_clean l /\ starts_clean (rev l)
  /\ Forall (fun c => tolower c = c) l.

(** ** The validator as [ingest] runs it, and its messages *)

Definition validate (meta : UploadMeta) (measuredSize : Z) (detectedType : string)
           (cfg : IngestConfig) : list string :=
  validateMime meta detectedType (acceptedMimes cfg)
    (validateLengths meta measuredSize (maxContentLength cfg) []).

Definition violation_order : list string :=
  [ "contentLength is negative"; "contentLength mismatch";
    "exceeds maxContentLength"; "claimedMime does not match detectedMime";
    "detectedMime not accepted" ].

(** ** Sample inputs *)

(** Messages of the FIPS 180 examples. *)
Definition sample_abc : list byte := list_byte_of_string "abc".
Definition sample_two_blocks : list byte :=
  list_byte_of_string "abcdbcdecdefdefgefghfghighijhijkijkljklmklmnlmnomnopnopq".

(** A buffer of 2^63 zero bytes, one more than an [int64_t] can count. *)
Definition huge_length : nat := N.to_nat (2 ^ 63).
Definition huge : list byte := replicate huge_length x00.

(** test.cpp:211-224, [testTinyInput]. *)
Definition tiny_meta : UploadMeta :=
  mkUploadMeta "empty.bin" "application/octet-stream" false 0.
Definition tiny_cfg : IngestConfig :=
  mkIngestConfig 1024 ["application/octet-stream"; "application/pdf"].

(** A source whose transport is down: every read throws. *)
Inductive BrokenSource : Type := broken.

#[export] Instance BrokenSource_ByteSource : ByteSource BrokenSource :=
  fun s _ _ => ReadThrows "connection reset" s.

(** A source that never ends: every read fills the whole of what it is
    asked for, and the stream goes on. *)
Inductive EndlessSource : Type := endless.

#[export] Instance EndlessSource_ByteSource : ByteSource EndlessSource :=
  fun s buffer maxLen =>
    ReadOk maxLen (memcpy buffer (replicate (N.to_nat maxLen) "a"%byte) maxLen) s.

Definition sample_pdf : list byte := list_byte_of_string "%PDF-1.4 sample".

Definition sample_meta : UploadMeta :=
  mkUploadMeta "sample.pdf" "image/png" true 16.

Definition sample_cfg : IngestConfig :=
  mkIngestConfig 8 ["application/pdf"; "image/png"].



(** ** Notions used by the further properties *)

(** A [MemoryByteSource] seen as a [VectorByteSource] over the same data at
    the same cursor. *)
Definition MemoryByteSource_view (m : MemoryByteSource.t) : VectorByteSource.t :=
  VectorByteSource.mk (MemoryByteSource.data_ m) (MemoryByteSource.offset_ m).

Definition MemoryByteSource_of (v : VectorByteSource.t) : MemoryByteSource.t :=
  MemoryByteSource.mk (VectorByteSource.data_ v) (VectorByteSource.offset_ v).

(** A string of white space only. *)
Definition all_space (s : string) : Prop :=
  Forall (fun c => isspace c = true) (list_ascii_of_string s).

(** The [transform(..., tolower)] step of [stripMime] on a whole string. *)
Definition lowercase (s : string) : string :=
  string_of_list_ascii (map tolower (list_ascii_of_string s)).

(** The value of a hexadecimal digit character, zero for any other one. *)
Definition hex_digit_value (c : ascii) : Z :=
  match String.index 0 (String c "") "0123456789abcdef" with
  | Some i => Z.of_nat i
  | None => 0
  end.

(** The number a string of hexadecimal digits denotes. *)
Definition hex_value (digits : list ascii) : Z :=
  fold_left (fun acc c => 16 * acc + hex_digit_value c) digits 0.

(** The number a sequence of bytes denotes, most significant byte first. *)
Definition be_value (bytes : list byte) : N :=
  fold_left (fun acc b => (256 * acc + Byte.to_N b)%N) bytes 0%N.

(** * Properties *)

(** ** The comparator decides equality of stripped strings *)

Lemma equalsIgnoreParams_true lhs rhs :
  equalsIgnoreParams lhs rhs = true <-> stripMime lhs = stripMime rhs.
Proof. unfold equalsIgnoreParams. apply String.eqb_eq. Qed.

Lemma equalsIgnoreParams_false lhs rhs :
  equalsIgnoreParams lhs rhs = false <-> stripMime lhs <> stripMime rhs.
Proof. unfold equalsIgnoreParams. apply String.eqb_neq. Qed.

Lemma isAcceptedMime_true detected accepted :
  isAcceptedMime detected accepted = true <->
  exists candidate, candidate ∈ accepted /\ stripMime detected = stripMime candidate.
Proof.
  induction accepted as [|c accepted IH]; simpl.
  - split; [discriminate | intros (? & Hin & _); inversion Hin].
  - destruct (equalsIgnoreParams detected c) eqn:E.
    + split; [intros _ | reflexivity].
      exists c. split; [left | by apply equalsIgnoreParams_true].
    + rewrite IH. apply equalsIgnoreParams_false in E.
      split; intros (x & Hin & Hx); exists x.
      * split; [by right | done].
      * split; [| done]. inversion Hin; subst; [contradiction | done].
Qed.

Lemma isAcceptedMime_false detected accepted :
  isAcceptedMime detected accepted = false <->
  forall candidate, candidate ∈ accepted -> stripMime detected <> stripMime candidate.
Proof.
  rewrite <- not_true_iff_false, isAcceptedMime_true. split.
  - intros Hn c Hin Heq. apply Hn. by exists c.
  - intros Hall (c & Hin & Heq). by apply (Hall c).
Qed.

(** ** The validator *)

(** The validator as the concatenation of what each rule contributes. *)
Lemma validate_rules meta measuredSize detectedType cfg :
  validate meta measuredSize detectedType cfg =
  ((if hasContentLength meta && (contentLength meta <? 0)%Z
    then ["contentLength is negative"] else [])
   ++ (if hasContentLength meta && negb (contentLength meta <? 0)%Z
          && negb (measuredSize =? contentLength meta)%Z
       then ["contentLength mismatch"] else [])
   ++ (if (0 <=? maxContentLength cfg)%Z && (maxContentLength cfg <? measuredSize)%Z
       then ["exceeds maxContentLength"] else [])
   ++ (if negb (string_empty (claimedMime meta))
          && negb (equalsIgnoreParams (claimedMime meta) detectedType)
       then ["claimedMime does not match detectedMime"] else [])
   ++ (if negb (empty (acceptedMimes cfg))
          && negb (isAcceptedMime detectedType (acceptedMimes cfg))
       then ["detectedMime not accepted"] else []))%list.
Proof.
  unfold validate, validateMime, validateLengths, emplace_back.
  destruct (hasContentLength meta), (contentLength meta <? 0)%Z,
    (measuredSize =? contentLength meta)%Z,
    ((0 <=? maxContentLength cfg)%Z && (maxContentLength cfg <? measuredSize)%Z),
    (negb (string_empty (claimedMime meta))
       && negb (equalsIgnoreParams (claimedMime meta) detectedType)),
    (negb (empty (acceptedMimes cfg))
       && negb (isAcceptedMime detectedType (acceptedMimes cfg)));
    reflexivity.
Qed.

Lemma string_empty_false s : string_empty s = false <-> s <> "".
Proof. destruct s; simpl; split; congruence. Qed.

Lemma empty_false {A} (l : list A) : empty l = false <-> l <> [].
Proof. destruct l; simpl; split; congruence. Qed.

Lemma elem_of_rule (c : bool) (m x : string) :
  x ∈ (if c then [m] else []) <-> c = true /\ x = m.
Proof.
  destruct c.
  - rewrite list_elem_of_singleton. tauto.
  - rewrite elem_of_nil. split; [tauto | intros [? _]; discriminate].
Qed.

Lemma iff_forward (P Q : Prop) : (P <-> Q) -> P -> Q.
Proof. tauto. Qed.

Local Ltac settle_member :=
  rewrite !elem_of_app, !elem_of_rule;
  split;
  [ intros Hm; repeat destruct Hm as [Hm|Hm]; destruct Hm as [Hm Hm'];
    (exact Hm || discriminate Hm')
  | intros Hm; tauto ].

(** ** Sequences of reads *)

Lemma total_of_app rs1 rs2 : total_of (rs1 ++ rs2) = (total_of rs1 + total_of rs2)%N.
Proof. induction rs1 as [|r rs1 IH]; simpl; [reflexivity | rewrite IH; lia]. Qed.

Lemma bytes_of_app rs1 rs2 : bytes_of (rs1 ++ rs2) = (bytes_of rs1 ++ bytes_of rs2)%list.
Proof. unfold bytes_of. by rewrite map_app, concat_app. Qed.

Lemma bytes_of_cons r rs : bytes_of (r :: rs) = (chunk_of r ++ bytes_of rs)%list.
Proof. reflexivity. Qed.

Lemma size_t_modulus_eq : size_t_modulus = 18446744073709551616%N.
Proof. reflexivity. Qed.

Lemma wrap_size_small n : (n < size_t_modulus)%N -> wrap_size n = n.
Proof. apply N.mod_small. Qed.

Section ReadsProps.
Context {Src : Type} `{ByteSource Src}.

Lemma Reads_snoc maxLen src buffer rs src1 buffer1 n buffer2 src2 :
  Reads maxLen src buffer rs src1 buffer1 ->
  read src1 buffer1 maxLen = ReadOk n buffer2 src2 ->
  n <> 0%N ->
  Reads maxLen src buffer (rs ++ [(n, buffer2)]) src2 buffer2.
Proof.
  induction 1 as [|? ? ? ? ? ? ? ? Hr Hn Hrs IH]; intros Hread Hnz; simpl.
  - eapply Reads_cons; eauto. constructor.
  - eapply Reads_cons; eauto.
Qed.

Lemma Reads_app maxLen src buffer rs1 src1 buffer1 rs2 src2 buffer2 :
  Reads maxLen src buffer rs1 src1 buffer1 ->
  Reads maxLen src1 buffer1 rs2 src2 buffer2 ->
  Reads maxLen src buffer (rs1 ++ rs2) src2 buffer2.
Proof.
  induction 1; intros; simpl; [assumption|].
  eapply Reads_cons; eauto.
Qed.

(** [read] is a function, so a source has one sequence of reads. *)
Lemma Reads_prefix maxLen src buffer rs1 src1 buffer1 rs2 src2 buffer2 :
  Reads maxLen src buffer rs1 src1 buffer1 ->
  Reads maxLen src buffer rs2 src2 buffer2 ->
  (length rs1 <= length rs2)%nat ->
  exists rs, rs2 = (rs1 ++ rs)%list /\ Reads maxLen src1 buffer1 rs src2 buffer2.
Proof.
  intros H1. revert rs2 src2 buffer2.
  induction H1 as [|? ? ? ? ? ? ? ? Hr Hn Hrs IH]; intros rs2 src2' buffer2' H2 Hlen.
  - exists rs2. split; [reflexivity | assumption].
  - inversion H2 as [|? ? ? ? ? ? ? ? Hr' Hn' Hrs']; subst.
    + simpl in Hlen. lia.
    + rewrite Hr in Hr'. inversion Hr'; subst.
      destruct (IH _ _ _ Hrs') as (rs' & -> & Hrest); [simpl in Hlen; lia|].
      exists rs'. split; [reflexivity | assumption].
Qed.

End ReadsProps.

(** ** [consumeToBuffer] *)

Section ConsumerProps.
Context {Src : Type} `{ByteSource Src}.

Lemma consumeLoop_step fuel src maxBytes data scratch total :
  consumeLoop (S fuel) src maxBytes data scratch total =
  match read src scratch scratch_size with
  | ReadThrows w src' => Some (Throws (SourceFailure w), src')
  | ReadOk readCount scratch' src' =>
      if (readCount =? 0)%N then Some (Returns data, src')
      else
        let total' := wrap_size (total + readCount) in
        if (maxBytes <? total')%N then Some (Throws BufferCeiling, src')
        else consumeLoop fuel src' maxBytes
               (data ++ take (N.to_nat readCount) scratch')%list scratch' total'
  end.
Proof. reflexivity. Qed.

Lemma consumeLoop_more_fuel fuel fuel' src maxBytes data scratch total r :
  consumeLoop fuel src maxBytes data scratch total = Some r ->
  (fuel <= fuel')%nat ->
  consumeLoop fuel' src maxBytes data scratch total = Some r.
Proof.
  revert fuel' src data scratch total.
  induction fuel as [|fuel IH]; intros fuel' src data scratch total Hrun Hle;
    [discriminate|].
  destruct fuel' as [|fuel']; [lia|].
  simpl in *.
  destruct (read src scratch scratch_size) as [n scratch' src'|w src']; [|assumption].
  destruct (n =? 0)%N; [assumption|].
  destruct (maxBytes <? wrap_size (total + n))%N; [assumption|].
  apply IH; [assumption | lia].
Qed.

(** A source that reaches its end within the ceiling is returned whole. *)
Lemma consumeLoop_returns rs :
  forall src scratch src1 scratch1 src' maxBytes data total,
    Reads scratch_size src scratch rs src1 scratch1 ->
    AtEof scratch_size src1 scratch1 src' ->
    (total + total_of rs <= maxBytes)%N ->
    (maxBytes < size_t_modulus)%N ->
    consumeLoop (S (length rs)) src maxBytes data scratch total
    = Some (Returns (data ++ bytes_of rs)%list, src').
Proof.
  induction rs as [|r rs IH];
    intros src scratch src1 scratch1 src' maxBytes data total Hreads Heof Htot Hmax;
    inversion Hreads as [|? ? n ? ? ? ? ? Hr Hn Hrs]; subst.
  - destruct Heof as [b' Hb']. simpl. rewrite Hb'. simpl.
    by rewrite app_nil_r.
  - simpl length. rewrite consumeLoop_step, Hr. cbv zeta.
    apply N.eqb_neq in Hn. rewrite Hn.
    simpl in Htot.
    rewrite wrap_size_small by lia.
    assert (Hlt : (maxBytes <? total + n)%N = false) by (apply N.ltb_ge; lia).
    rewrite Hlt.
    rewrite (IH _ _ _ _ _ _ _ _ Hrs Heof) by (assumption || lia).
    rewrite bytes_of_cons, app_assoc. reflexivity.
Qed.

(** The read that takes the total over the ceiling ends the loop. *)
Lemma consumeLoop_throws rs :
  forall src scratch src1 scratch1 n scratch2 src' maxBytes data total,
    Reads scratch_size src scratch rs src1 scratch1 ->
    read src1 scratch1 scratch_size = ReadOk n scratch2 src' ->
    (total + total_of rs <= maxBytes)%N ->
    (maxBytes < total + total_of rs + n)%N ->
    (total + total_of rs + n < size_t_modulus)%N ->
    consumeLoop (S (length rs)) src maxBytes data scratch total
    = Some (Throws BufferCeiling, src').
Proof.
  induction rs as [|r rs IH];
    intros src scratch src1 scratch1 n scratch2 src' maxBytes data total
           Hreads Hlast Htot Hover Hfit;
    inversion Hreads as [|? ? m ? ? ? ? ? Hr Hm Hrs]; subst.
  - simpl in *. rewrite Hlast.
    assert (Hn : (n =? 0)%N = false) by (apply N.eqb_neq; lia).
    rewrite Hn, wrap_size_small by lia.
    assert (Hlt : (maxBytes <? total + n)%N = true) by (apply N.ltb_lt; lia).
    by rewrite Hlt.
  - simpl length. rewrite consumeLoop_step, Hr. cbv zeta.
    apply N.eqb_neq in Hm. rewrite Hm.
    simpl in Htot, Hover, Hfit.
    rewrite wrap_size_small by lia.
    assert (Hlt : (maxBytes <? total + m)%N = false) by (apply N.ltb_ge; lia).
    rewrite Hlt.
    apply (IH _ _ _ _ _ _ _ _ _ _ Hrs Hlast); lia.
Qed.

(** A failing read ends the loop with the failure. *)
Lemma consumeLoop_fails rs :
  forall src scratch src1 scratch1 w src' maxBytes data total,
    Reads scratch_size src scratch rs src1 scratch1 ->
    AtFailure scratch_size src1 scratch1 w src' ->
    (total + total_of rs <= maxBytes)%N ->
    (maxBytes < size_t_modulus)%N ->
    consumeLoop (S (length rs)) src maxBytes data scratch total
    = Some (Throws (SourceFailure w), src').
Proof.
  induction rs as [|r rs IH];
    intros src scratch src1 scratch1 w src' maxBytes data total Hreads Hfail Htot Hmax;
    inversion Hreads as [|? ? n ? ? ? ? ? Hr Hn Hrs]; subst.
  - unfold AtFailure in Hfail. simpl. by rewrite Hfail.
  - simpl length. rewrite consumeLoop_step, Hr. cbv zeta.
    apply N.eqb_neq in Hn. rewrite Hn.
    simpl in Htot.
    rewrite wrap_size_small by lia.
    assert (Hlt : (maxBytes <? total + n)%N = false) by (apply N.ltb_ge; lia).
    rewrite Hlt.
    apply (IH _ _ _ _ _ _ _ _ _ Hrs Hfail); lia.
Qed.

Lemma consumeLoop_sound src0 maxBytes :
  (forall rs src' scratch',
      Reads scratch_size src0 scratch0 rs src' scratch' ->
      (total_of rs < size_t_modulus)%N) ->
  forall fuel rs0 src scratch c src',
    Reads scratch_size src0 scratch0 rs0 src scratch ->
    (total_of rs0 <= maxBytes)%N ->
    consumeLoop fuel src maxBytes (bytes_of rs0) scratch (total_of rs0)
    = Some (c, src') ->
    consume_outcome src0 maxBytes c src'.
Proof.
  intros Hfit.
  induction fuel as [|fuel IH]; intros rs0 src scratch c src' Hreads Htot Hrun;
    [discriminate|].
  simpl in Hrun.
  destruct (read src scratch scratch_size) as [n scratch1 src1|w src1] eqn:Hr.
  - destruct (n =? 0)%N eqn:Hn.
    + apply N.eqb_eq in Hn. subst n. inversion Hrun; subst. simpl.
      exists rs0, src, scratch. repeat split; try assumption. by exists scratch1.
    + apply N.eqb_neq in Hn.
      pose proof (Reads_snoc _ _ _ _ _ _ _ _ _ Hreads Hr Hn) as Hsnoc.
      pose proof (Hfit _ _ _ Hsnoc) as Hsmall.
      rewrite total_of_app in Hsmall. simpl in Hsmall.
      rewrite N.add_0_r in Hsmall.
      rewrite wrap_size_small in Hrun by assumption.
      destruct (maxBytes <? total_of rs0 + n)%N eqn:Hlt.
      * apply N.ltb_lt in Hlt. inversion Hrun; subst. simpl.
        exists rs0, src, scratch, n, scratch1. repeat split; assumption.
      * apply N.ltb_ge in Hlt.
        apply (IH (rs0 ++ [(n, scratch1)])%list src1 scratch1); try assumption.
        -- rewrite total_of_app. simpl. lia.
        -- rewrite total_of_app, bytes_of_app. simpl.
           rewrite N.add_0_r.
           unfold bytes_of at 2. simpl. rewrite app_nil_r. exact Hrun.
  - inversion Hrun; subst. simpl.
    exists rs0, src, scratch. repeat split; assumption.
Qed.

(** The same for a stream of any length, finite or not, from a source that
    keeps the contract of [read] (a count is at most [maxLen]): while the
    total is within a ceiling that lies a scratch buffer below 2^64, the
    next total does not wrap. *)
Lemma consumeLoop_sound_bounded src0 maxBytes :
  (maxBytes + scratch_size < size_t_modulus)%N ->
  (forall rs src1 scratch1 n scratch2 src2,
      Reads scratch_size src0 scratch0 rs src1 scratch1 ->
      read src1 scratch1 scratch_size = ReadOk n scratch2 src2 ->
      (n <= scratch_size)%N) ->
  forall fuel rs0 src scratch c src',
    Reads scratch_size src0 scratch0 rs0 src scratch ->
    (total_of rs0 <= maxBytes)%N ->
    consumeLoop fuel src maxBytes (bytes_of rs0) scratch (total_of rs0)
    = Some (c, src') ->
    consume_outcome src0 maxBytes c src'.
Proof.
  intros Hmax Hcontract.
  induction fuel as [|fuel IH]; intros rs0 src scratch c src' Hreads Htot Hrun;
    [discriminate|].
  rewrite consumeLoop_step in Hrun.
  destruct (read src scratch scratch_size) as [n scratch1 src1|w src1] eqn:Hr.
  - destruct (n =? 0)%N eqn:Hn.
    + apply N.eqb_eq in Hn. subst n. inversion Hrun; subst. simpl.
      exists rs0, src, scratch. repeat split; try assumption. by exists scratch1.
    + apply N.eqb_neq in Hn.
      pose proof (Hcontract _ _ _ _ _ _ Hreads Hr) as Hcount.
      cbv zeta in Hrun.
      rewrite wrap_size_small in Hrun by lia.
      destruct (maxBytes <? total_of rs0 + n)%N eqn:Hlt.
      * apply N.ltb_lt in Hlt. inversion Hrun; subst. simpl.
        exists rs0, src, scratch, n, scratch1. repeat split; assumption.
      * apply N.ltb_ge in Hlt.
        pose proof (Reads_snoc _ _ _ _ _ _ _ _ _ Hreads Hr Hn) as Hsnoc.
        apply (IH (rs0 ++ [(n, scratch1)])%list src1 scratch1); try assumption.
        -- rewrite total_of_app. simpl. lia.
        -- rewrite total_of_app, bytes_of_app. simpl.
           rewrite N.add_0_r.
           unfold bytes_of at 2. simpl. rewrite app_nil_r. exact Hrun.
  - inversion Hrun; subst. simpl.
    exists rs0, src, scratch. repeat split; assumption.
Qed.

End ConsumerProps.

(** ** The in-memory source *)

Lemma size_length {A} (l : list A) : N.to_nat (size l) = length l.
Proof. unfold size. lia. Qed.

(** One [read] in closed form: the count is the smaller of what is left and
    [maxLen], the bytes land at the start of the buffer, the cursor moves by
    the count. *)
Lemma VectorByteSource_read_eq v buffer maxLen :
  (size (VectorByteSource.data_ v) < size_t_modulus)%N ->
  VectorByteSource.read v buffer maxLen =
  let n := N.min (size (VectorByteSource.data_ v) - VectorByteSource.offset_ v) maxLen in
  (n,
   (take (N.to_nat n)
         (drop (N.to_nat (VectorByteSource.offset_ v)) (VectorByteSource.data_ v))
    ++ drop (N.to_nat n) buffer)%list,
   VectorByteSource.mk (VectorByteSource.data_ v) (VectorByteSource.offset_ v + n)).
Proof.
  destruct v as [data offset]. simpl. intros Hsize.
  unfold VectorByteSource.read. simpl.
  destruct ((size data <=? offset) || (maxLen =? 0))%N eqn:Hguard.
  - assert (Hn : N.min (size data - offset) maxLen = 0%N).
    { apply orb_true_iff in Hguard as [Hg|Hg].
      - apply N.leb_le in Hg. lia.
      - apply N.eqb_eq in Hg. lia. }
    rewrite Hn. simpl. by rewrite N.add_0_r.
  - apply orb_false_iff in Hguard as [Hg1 Hg2].
    apply N.leb_gt in Hg1. apply N.eqb_neq in Hg2.
    assert (Hn : (if (size data - offset <? maxLen)%N then (size data - offset)%N else maxLen)
                 = N.min (size data - offset) maxLen).
    { destruct (size data - offset <? maxLen)%N eqn:E.
      - apply N.ltb_lt in E. lia.
      - apply N.ltb_ge in E. lia. }
    rewrite Hn. unfold memcpy.
    rewrite wrap_size_small by lia. reflexivity.
Qed.

Lemma MemoryByteSource_read_eq m buffer maxLen :
  MemoryByteSource.read m buffer maxLen =
  let '(n, buffer', v') :=
    VectorByteSource.read
      (VectorByteSource.mk (MemoryByteSource.data_ m) (MemoryByteSource.offset_ m))
      buffer maxLen in
  (n, buffer', MemoryByteSource.mk (VectorByteSource.data_ v') (VectorByteSource.offset_ v')).
Proof.
  destruct m as [data offset].
  unfold MemoryByteSource.read, VectorByteSource.read. simpl.
  destruct ((size data <=? offset) || (maxLen =? 0))%N; reflexivity.
Qed.

Lemma take_take_drop_N {A} (l : list A) (a b : N) :
  (take (N.to_nat a) l ++ take (N.to_nat b) (drop (N.to_nat a) l))%list
  = take (N.to_nat (a + b)) l.
Proof. rewrite N2Nat.inj_add. apply take_take_drop. Qed.

(** Reads of an in-memory source walk through its data. *)
Lemma VectorByteSource_Reads maxLen v buffer rs v' buffer' :
  Reads maxLen v buffer rs v' buffer' ->
  (size (VectorByteSource.data_ v) < size_t_modulus)%N ->
  (VectorByteSource.offset_ v <= size (VectorByteSource.data_ v))%N ->
  VectorByteSource.data_ v' = VectorByteSource.data_ v
  /\ VectorByteSource.offset_ v' = (VectorByteSource.offset_ v + total_of rs)%N
  /\ (VectorByteSource.offset_ v' <= size (VectorByteSource.data_ v))%N
  /\ bytes_of rs = take (N.to_nat (total_of rs))
                        (drop (N.to_nat (VectorByteSource.offset_ v))
                              (VectorByteSource.data_ v)).
Proof.
  induction 1 as [|v buffer n buffer1 v1 rs v2 buffer2 Hr Hn Hrs IH];
    intros Hsize Hoff.
  - simpl. rewrite N.add_0_r. repeat split; try done.
  - unfold read, VectorByteSource_ByteSource in Hr.
    rewrite VectorByteSource_read_eq in Hr by assumption.
    cbv zeta in Hr. inversion Hr as [[Hn' Hb Hv]]. clear Hr.
    set (k := N.min (size (VectorByteSource.data_ v) - VectorByteSource.offset_ v) maxLen) in *.
    assert (Hk : (k <= size (VectorByteSource.data_ v) - VectorByteSource.offset_ v)%N)
      by (unfold k; lia).
    subst v1. simpl in IH.
    destruct IH as (Hd & Ho & Hle & Hbytes); [assumption | lia |].
    subst n.
    repeat split.
    + assumption.
    + rewrite Ho. simpl. lia.
    + assumption.
    + rewrite bytes_of_cons, Hbytes. unfold chunk_of. simpl.
      rewrite take_app_le.
      2:{ rewrite length_take, length_drop. unfold size in *. lia. }
      rewrite take_take, Nat.min_id.
      rewrite <- take_take_drop_N.
      by rewrite drop_drop, <- N2Nat.inj_add.
Qed.

Lemma VectorByteSource_AtEof maxLen v buffer v' :
  (0 < maxLen)%N ->
  (size (VectorByteSource.data_ v) < size_t_modulus)%N ->
  AtEof maxLen v buffer v' <->
  (size (VectorByteSource.data_ v) <= VectorByteSource.offset_ v)%N /\ v' = v.
Proof.
  intros Hm Hsize. unfold AtEof, read, VectorByteSource_ByteSource.
  rewrite VectorByteSource_read_eq by assumption. cbv zeta.
  destruct v as [data offset]; simpl in *.
  split.
  - intros (b' & Hb). inversion Hb as [[Hn Hb' Hv]].
    rewrite Hn, N.add_0_r. split; [lia | reflexivity].
  - intros [Hle ->].
    assert (Hn : N.min (size data - offset) maxLen = 0%N) by lia.
    rewrite Hn, N.add_0_r. eexists. reflexivity.
Qed.

(** An in-memory source reaches its end after finitely many reads. *)
Lemma VectorByteSource_drains maxLen (k : nat) :
  (0 < maxLen)%N ->
  forall v buffer,
    (size (VectorByteSource.data_ v) < size_t_modulus)%N ->
    (VectorByteSource.offset_ v <= size (VectorByteSource.data_ v))%N ->
    (N.to_nat (size (VectorByteSource.data_ v) - VectorByteSource.offset_ v) <= k)%nat ->
    exists rs buffer',
      Reads maxLen v buffer rs
            (VectorByteSource.mk (VectorByteSource.data_ v)
                                 (size (VectorByteSource.data_ v))) buffer'
      /\ (length rs <= k)%nat.
Proof.
  intros Hm. induction k as [|k IH]; intros v buffer Hsize Hoff Hk.
  - exists [], buffer. split; [|simpl; lia].
    destruct v as [data offset]; simpl in *.
    replace offset with (size data) by lia. constructor.
  - destruct (N.eq_dec (VectorByteSource.offset_ v) (size (VectorByteSource.data_ v)))
      as [Heq|Hne].
    + exists [], buffer. split; [|simpl; lia].
      destruct v as [data offset]; simpl in *. subst offset. constructor.
    + pose proof (VectorByteSource_read_eq v buffer maxLen Hsize) as Hread.
      cbv zeta in Hread.
      set (n := N.min (size (VectorByteSource.data_ v) - VectorByteSource.offset_ v) maxLen) in *.
      assert (Hn : (0 < n)%N) by (unfold n; lia).
      assert (Hn' : (n <= size (VectorByteSource.data_ v) - VectorByteSource.offset_ v)%N)
        by (unfold n; lia).
      match type of Hread with _ = (_, ?b, ?w) =>
        destruct (IH w b) as (rs & buffer' & Hrs & Hlen); simpl; try assumption; try lia;
        exists ((n, b) :: rs), buffer'
      end.
      split; [|simpl; lia].
      eapply Reads_cons; [|lia|exact Hrs].
      unfold read, VectorByteSource_ByteSource. by rewrite Hread.
Qed.

Lemma size_t_max_lt : (size_t_max < size_t_modulus)%N.
Proof. reflexivity. Qed.

(** Draining an in-memory source with [consumeToBuffer] returns its data. *)
Lemma consumeToBuffer_VectorByteSource data maxBytes fuel :
  (size data <= maxBytes)%N ->
  (maxBytes < size_t_modulus)%N ->
  (length data < fuel)%nat ->
  consumeToBuffer fuel (VectorByteSource.make data) maxBytes
  = Some (Returns data, VectorByteSource.mk data (size data)).
Proof.
  intros Hle Hmax Hfuel.
  assert (Hsize : (size data < size_t_modulus)%N) by lia.
  destruct (VectorByteSource_drains scratch_size (length data) eq_refl
              (VectorByteSource.make data) scratch0) as (rs & b' & Hrs & Hlen);
    simpl; try assumption; try lia.
  { unfold size. lia. }
  destruct (VectorByteSource_Reads _ _ _ _ _ _ Hrs) as (_ & Ho & _ & Hb);
    simpl; try assumption; try lia.
  simpl in Ho, Hb. rewrite N.add_0_l in Ho.
  assert (Heof : AtEof scratch_size (VectorByteSource.mk data (size data)) b'
                       (VectorByteSource.mk data (size data))).
  { apply VectorByteSource_AtEof; simpl; try done. }
  unfold consumeToBuffer.
  apply (consumeLoop_more_fuel (S (length rs))); [|lia].
  fold scratch0.
  rewrite (consumeLoop_returns rs _ _ _ _ _ maxBytes [] 0%N Hrs Heof) by lia.
  simpl. rewrite Hb, <- Ho, drop_0, size_length, firstn_all. reflexivity.
Qed.

(** ** [RecordingSink] *)

Section RecordingSinkProps.
Context {D : Type} `{ByteSource D}.

Lemma persistLoop_step fuel (data : D) buffer forwarded forwardedBytes :
  RecordingSink.persistLoop (S fuel) data buffer forwarded forwardedBytes =
  match read data buffer 4096%N with
  | ReadThrows w _ =>
      Some (Throws (SourceFailure w), (forwarded, forwardedBytes))
  | ReadOk n buffer' data' =>
      if (n =? 0)%N then Some (Returns tt, (forwarded, forwardedBytes))
      else RecordingSink.persistLoop fuel data' buffer'
             (forwarded ++ take (N.to_nat n) buffer')%list
             (wrap_size (forwardedBytes + n))
  end.
Proof. reflexivity. Qed.

Lemma persistLoop_more_fuel fuel fuel' (data : D) buffer forwarded forwardedBytes r :
  RecordingSink.persistLoop fuel data buffer forwarded forwardedBytes = Some r ->
  (fuel <= fuel')%nat ->
  RecordingSink.persistLoop fuel' data buffer forwarded forwardedBytes = Some r.
Proof.
  revert fuel' data buffer forwarded forwardedBytes.
  induction fuel as [|fuel IH]; intros fuel' data buffer forwarded forwardedBytes Hrun Hle;
    [discriminate|].
  destruct fuel' as [|fuel']; [lia|].
  rewrite persistLoop_step in *.
  destruct (read data buffer 4096%N) as [n buffer' data'|w data']; [|assumption].
  destruct (n =? 0)%N; [assumption|].
  apply IH; [assumption | lia].
Qed.

Lemma persistLoop_returns rs :
  forall (data : D) buffer data1 buffer1 data' forwarded forwardedBytes,
    Reads 4096%N data buffer rs data1 buffer1 ->
    AtEof 4096%N data1 buffer1 data' ->
    (forwardedBytes + total_of rs < size_t_modulus)%N ->
    RecordingSink.persistLoop (S (length rs)) data buffer forwarded forwardedBytes
    = Some (Returns tt, ((forwarded ++ bytes_of rs)%list,
                         (forwardedBytes + total_of rs)%N)).
Proof.
  induction rs as [|r rs IH];
    intros data buffer data1 buffer1 data' forwarded forwardedBytes Hreads Heof Hfit;
    inversion Hreads as [|? ? n ? ? ? ? ? Hr Hn Hrs]; subst.
  - destruct Heof as [b' Hb']. rewrite persistLoop_step, Hb'. simpl.
    by rewrite app_nil_r, N.add_0_r.
  - simpl length. rewrite persistLoop_step, Hr.
    apply N.eqb_neq in Hn. rewrite Hn.
    simpl in Hfit.
    rewrite wrap_size_small by lia.
    rewrite (IH _ _ _ _ _ _ _ Hrs Heof) by lia.
    rewrite bytes_of_cons, app_assoc. simpl.
    by rewrite N.add_assoc.
Qed.

End RecordingSinkProps.

(** The recording sink forwards the whole replay source. *)
Lemma RecordingSink_persist_replay meta result buffer sink :
  (size buffer < size_t_modulus)%N ->
  persist meta result (VectorByteSource.make buffer) sink
  = Some (Returns tt, RecordingSink.mk meta result buffer (size buffer)).
Proof.
  intros Hsize.
  destruct (VectorByteSource_drains 4096 (length buffer) eq_refl
              (VectorByteSource.make buffer) (replicate 4096 x00))
    as (rs & b' & Hrs & Hlen); simpl; try assumption; try lia.
  { unfold size. lia. }
  destruct (VectorByteSource_Reads _ _ _ _ _ _ Hrs) as (_ & Ho & _ & Hb);
    simpl; try assumption; try lia.
  simpl in Ho, Hb. rewrite N.add_0_l in Ho.
  assert (Heof : AtEof 4096 (VectorByteSource.mk buffer (size buffer)) b'
                       (VectorByteSource.mk buffer (size buffer))).
  { apply VectorByteSource_AtEof; simpl; try done. }
  unfold persist, RecordingSink_IngestSink, RecordingSink.persist.
  change (VectorByteSource.data_ (VectorByteSource.make buffer)) with buffer.
  pose proof (persistLoop_returns rs _ _ _ _ _ [] 0%N Hrs Heof ltac:(lia)) as Hrun.
  apply (persistLoop_more_fuel _ (S (length buffer))) in Hrun; [|lia].
  rewrite Hrun. simpl. rewrite Hb, <- Ho, drop_0, size_length, firstn_all. reflexivity.
Qed.

(** ** The bounded consumer *)

(** C5. For every source that keeps the contract of [read] (a count is at
    most [maxLen]), whether its stream ends or not, and every ceiling
    [maxBytes] that lies at least a scratch buffer below 2^64:
    [consumeToBuffer] throws the capacity error exactly when some read takes
    the running total of the counts over [maxBytes] while every earlier
    total was within it; it throws at that very read, the source is left as
    that read left it and nothing further is read.  It returns exactly when
    the source reports end of stream with the total within [maxBytes], and
    the buffer returned is the concatenation, in order, of the chunks read.
    A failing read ends it with that failure. *)
Theorem consumeToBuffer_spec {Src : Type} `{ByteSource Src} (src : Src) (maxBytes : N) :
  (maxBytes + scratch_size < size_t_modulus)%N ->
  (forall rs src1 scratch1 n scratch2 src2,
      Reads scratch_size src scratch0 rs src1 scratch1 ->
      read src1 scratch1 scratch_size = ReadOk n scratch2 src2 ->
      (n <= scratch_size)%N) ->
  forall src',
    ((exists fuel, consumeToBuffer fuel src maxBytes = Some (Throws BufferCeiling, src'))
     <->
     (exists rs src1 scratch1 n scratch2,
         Reads scratch_size src scratch0 rs src1 scratch1
         /\ read src1 scratch1 scratch_size = ReadOk n scratch2 src'
         /\ (total_of rs <= maxBytes < total_of rs + n)%N))
    /\ (forall rs src1 scratch1 n scratch2,
           Reads scratch_size src scratch0 rs src1 scratch1 ->
           read src1 scratch1 scratch_size = ReadOk n scratch2 src' ->
           (total_of rs <= maxBytes < total_of rs + n)%N ->
           consumeToBuffer (S (length rs)) src maxBytes
           = Some (Throws BufferCeiling, src'))
    /\ (forall buffer,
           (exists fuel, consumeToBuffer fuel src maxBytes = Some (Returns buffer, src'))
           <->
           (exists rs src1 scratch1,
               Reads scratch_size src scratch0 rs src1 scratch1
               /\ AtEof scratch_size src1 scratch1 src'
               /\ (total_of rs <= maxBytes)%N
               /\ buffer = bytes_of rs))
    /\ (forall w,
           (exists fuel, consumeToBuffer fuel src maxBytes
                         = Some (Throws (SourceFailure w), src'))
           <->
           (exists rs src1 scratch1,
               Reads scratch_size src scratch0 rs src1 scratch1
               /\ AtFailure scratch_size src1 scratch1 w src'
               /\ (total_of rs <= maxBytes)%N)).
Proof.
  intros Hmax Hcontract src'.
  assert (Hsound : forall fuel c,
             consumeToBuffer fuel src maxBytes = Some (c, src') ->
             consume_outcome src maxBytes c src').
  { intros fuel c Hrun.
    apply (consumeLoop_sound_bounded src maxBytes Hmax Hcontract fuel [] src scratch0);
      [constructor | simpl; lia | exact Hrun]. }
  assert (Hthrow : forall rs src1 scratch1 n scratch2,
             Reads scratch_size src scratch0 rs src1 scratch1 ->
             read src1 scratch1 scratch_size = ReadOk n scratch2 src' ->
             (total_of rs <= maxBytes < total_of rs + n)%N ->
             consumeToBuffer (S (length rs)) src maxBytes
             = Some (Throws BufferCeiling, src')).
  { intros rs src1 scratch1 n scratch2 Hrs Hr [Hle Hlt].
    pose proof (Hcontract _ _ _ _ _ _ Hrs Hr) as Hcount.
    apply (consumeLoop_throws rs _ _ _ _ _ _ _ _ _ _ Hrs Hr); lia. }
  split; [|split; [|split]].
  - split.
    + intros [fuel Hrun]. exact (Hsound _ _ Hrun).
    + intros (rs & src1 & scratch1 & n & scratch2 & Hrs & Hr & Hb).
      exists (S (length rs)). eapply Hthrow; eauto.
  - exact Hthrow.
  - intros buffer. split.
    + intros [fuel Hrun]. exact (Hsound _ _ Hrun).
    + intros (rs & src1 & scratch1 & Hrs & Heof & Hle & ->).
      exists (S (length rs)).
      apply (consumeLoop_returns rs _ _ _ _ _ _ [] 0%N Hrs Heof); lia.
  - intros w. split.
    + intros [fuel Hrun]. exact (Hsound _ _ Hrun).
    + intros (rs & src1 & scratch1 & Hrs & Hfail & Hle).
      exists (S (length rs)).
      apply (consumeLoop_fails rs _ _ _ _ _ _ _ [] 0%N Hrs Hfail); lia.
Qed.

Lemma VectorByteSource_totals_fit data rs v' scratch' :
  (size data < size_t_modulus)%N ->
  Reads scratch_size (VectorByteSource.make data) scratch0 rs v' scratch' ->
  (total_of rs < size_t_modulus)%N.
Proof.
  intros Hsize Hrs.
  destruct (VectorByteSource_Reads _ _ _ _ _ _ Hrs) as (_ & Ho & Hle & _);
    simpl in *; try assumption; try lia.
Qed.

(** Every read of the endless source hands out as much as it is asked for. *)
Lemma EndlessSource_read (s : EndlessSource) buffer maxLen :
  exists buffer', read s buffer maxLen = ReadOk maxLen buffer' s.
Proof. eexists. reflexivity. Qed.

(** A stream that never ends against a ceiling of 10: the first read
    already stops the consumer. *)
Lemma consumeToBuffer_spec_witness :
  consumeToBuffer 1 endless 10 = Some (Throws BufferCeiling, endless).
Proof.
  destruct (EndlessSource_read endless scratch0 scratch_size) as [scratch2 Hfirst].
  refine (proj1 (proj2 (consumeToBuffer_spec endless 10 eq_refl _ endless))
            [] endless scratch0 scratch_size scratch2 (Reads_nil _ _ _) Hfirst _).
  - intros rs src1 scratch1 n scratch3 src2 _ Hr.
    destruct (EndlessSource_read src1 scratch1 scratch_size) as [scratch4 Hread].
    rewrite Hread in Hr. injection Hr as Hn _ _.
    rewrite <- Hn. apply N.le_refl.
  - unfold scratch_size. simpl. lia.
Defined.

(** ** [ingest] *)

Section ConsumerThrows.
Context {Src : Type} `{ByteSource Src}.

(** The consumer throws nothing but the two fatal errors. *)
Lemma consumeLoop_throws_only fuel :
  forall (src : Src) maxBytes data scratch total e src',
    consumeLoop fuel src maxBytes data scratch total = Some (Throws e, src') ->
    e = BufferCeiling \/ exists w, e = SourceFailure w.
Proof.
  induction fuel as [|fuel IH]; intros src maxBytes data scratch total e src' Hrun;
    [discriminate|].
  rewrite consumeLoop_step in Hrun.
  destruct (read src scratch scratch_size) as [n scratch1 src1|w src1].
  - destruct (n =? 0)%N; [discriminate|].
    cbv zeta in Hrun.
    destruct (maxBytes <? wrap_size (total + n))%N.
    + inversion Hrun. by left.
    + eapply IH; eauto.
  - inversion Hrun. right. by exists w.
Qed.

End ConsumerThrows.

Section IngestProps.
Context {Src Snk : Type} `{ByteSource Src} `{IngestSink Snk}.

(** The result record [ingest] builds from a buffer. *)
Lemma ingest_unfold fuel meta cfg (source : Src) (sink : Snk) :
  ingest fuel meta cfg source sink =
  match consumeToBuffer fuel source size_t_max with
  | None => None
  | Some (Throws e, source') => Some (mkIngestRun (Throws e) source' sink [])
  | Some (Returns buffer, source') =>
      if (Z.to_N int64_max <? size buffer)%N then
        Some (mkIngestRun (Throws SizeRange) source' sink [])
      else
        let errors := validate meta (Z.of_N (size buffer)) (detectMime buffer) cfg in
        let result :=
          {| detectedMime := detectMime buffer; size_ := Z.of_N (size buffer);
             sha256 := sha256Hex buffer; ok := empty errors; errors := errors |} in
        match persist meta result (VectorByteSource.make buffer) sink with
        | None => None
        | Some (c, sink') =>
            Some (mkIngestRun c source' sink'
                    [mkSinkCall meta result (VectorByteSource.make buffer)])
        end
  end.
Proof. reflexivity. Qed.

End IngestProps.

(** C6. When consuming the source throws, [ingest] completes with that
    exception, which is an I/O failure of the source or the ceiling error;
    the sink has not been invoked, its state is untouched and no result
    record has been handed out.  When the source is consumed and its size is
    in range, the sink is invoked with the result record whatever violations
    it lists. *)
Theorem ingest_aborts_before_sink {Src Snk : Type} `{ByteSource Src} `{IngestSink Snk}
        fuel meta cfg (source : Src) (sink : Snk) :
  (forall e source',
      consumeToBuffer fuel source size_t_max = Some (Throws e, source') ->
      ingest fuel meta cfg source sink
      = Some {| completion := Throws e; source_after := source';
                sink_after := sink; calls := [] |}
      /\ (e = BufferCeiling \/ exists w, e = SourceFailure w))
  /\ (forall buffer source' c sink',
         consumeToBuffer fuel source size_t_max = Some (Returns buffer, source') ->
         (size buffer <= Z.to_N int64_max)%N ->
         let errors := validate meta (Z.of_N (size buffer)) (detectMime buffer) cfg in
         let result :=
           {| detectedMime := detectMime buffer; size_ := Z.of_N (size buffer);
              sha256 := sha256Hex buffer; ok := empty errors; errors := errors |} in
         persist meta result (VectorByteSource.make buffer) sink = Some (c, sink') ->
         ingest fuel meta cfg source sink
         = Some {| completion := c; source_after := source'; sink_after := sink';
                   calls := [mkSinkCall meta result (VectorByteSource.make buffer)] |}).
Proof.
  split.
  - intros e source' Hconsume. split.
    + rewrite ingest_unfold, Hconsume. reflexivity.
    + eapply consumeLoop_throws_only. exact Hconsume.
  - intros buffer source' c sink' Hconsume Hsize errors result Hpersist.
    rewrite ingest_unfold, Hconsume.
    assert (Hlt : (Z.to_N int64_max <? size buffer)%N = false) by (apply N.ltb_ge; lia).
    rewrite Hlt. cbv zeta. fold errors. fold result. by rewrite Hpersist.
Qed.

(** A broken transport: [ingest] throws the read failure and the recording
    sink stays as it was. *)
Lemma ingest_aborts_before_sink_witness :
  ingest 1 sample_meta sample_cfg broken RecordingSink.initial
  = Some {| completion := Throws (SourceFailure "connection reset");
            source_after := broken; sink_after := RecordingSink.initial;
            calls := [] |}
  /\ (SourceFailure "connection reset" = BufferCeiling
      \/ exists w, SourceFailure "connection reset" = SourceFailure w).
Proof.
  apply (proj1 (ingest_aborts_before_sink 1 sample_meta sample_cfg broken
                  RecordingSink.initial)).
  reflexivity.
Defined.

(** C7. In every sink invocation of every run of [ingest], the result's [ok]
    flag is true exactly when its violation list is empty; the flag is
    computed from the list, which is the validator's output for the measured
    size and the detected type. *)
Theorem ingest_ok_iff_no_errors {Src Snk : Type} `{ByteSource Src} `{IngestSink Snk}
        fuel meta cfg (source : Src) (sink : Snk) run call :
  ingest fuel meta cfg source sink = Some run ->
  call ∈ calls run ->
  (ok (call_result call) = true <-> errors (call_result call) = [])
  /\ ok (call_result call) = empty (errors (call_result call))
  /\ errors (call_result call)
     = validate meta (size_ (call_result call)) (detectedMime (call_result call)) cfg.
Proof.
  rewrite ingest_unfold.
  destruct (consumeToBuffer fuel source size_t_max) as [[[buffer|e] source']|];
    [| |discriminate].
  - destruct (Z.to_N int64_max <? size buffer)%N.
    + intros [= <-] Hin. inversion Hin.
    + cbv zeta.
      destruct (persist _ _ _ sink) as [[c sink']|]; [|discriminate].
      intros [= <-] Hin. simpl in Hin.
      apply list_elem_of_singleton in Hin. subst call. simpl.
      split; [|split; reflexivity].
      destruct (validate _ _ _ _); simpl; split; congruence.
  - intros [= <-] Hin. inversion Hin.
Qed.

(** A PDF with a wrong claimed type, a wrong declared length and a ceiling
    below its size: the recording sink is called and [ok] is consistent. *)
Lemma ingest_ok_iff_no_errors_witness :
  match ingest 2 sample_meta sample_cfg (MemoryByteSource.make sample_pdf)
               RecordingSink.initial with
  | Some run =>
      calls run <> []
      /\ forall call, call ∈ calls run ->
           (ok (call_result call) = true <-> errors (call_result call) = [])
           /\ ok (call_result call) = empty (errors (call_result call))
           /\ errors (call_result call)
              = validate sample_meta (size_ (call_result call))
                         (detectedMime (call_result call)) sample_cfg
  | None => False
  end.
Proof.
  destruct (ingest 2 sample_meta sample_cfg (MemoryByteSource.make sample_pdf)
                   RecordingSink.initial) as [run|] eqn:Hrun.
  - split.
    + vm_compute in Hrun. inversion Hrun. discriminate.
    + intros call Hin.
      exact (ingest_ok_iff_no_errors 2 sample_meta sample_cfg _ _ run call Hrun Hin).
  - vm_compute in Hrun. discriminate Hrun.
Defined.

(** C10. Once the source is consumed: a buffer longer than the largest
    [int64_t] makes [ingest] throw the size-range error with the sink not
    invoked and no result built; for a buffer within that range the sink is
    invoked, and the result's size is the buffer length, which is not
    negative. *)
Theorem ingest_size_range {Src Snk : Type} `{ByteSource Src} `{IngestSink Snk}
        fuel meta cfg (source : Src) (sink : Snk) buffer source' :
  consumeToBuffer fuel source size_t_max = Some (Returns buffer, source') ->
  ((Z.to_N int64_max < size buffer)%N ->
   ingest fuel meta cfg source sink
   = Some {| completion := Throws SizeRange; source_after := source';
             sink_after := sink; calls := [] |}
   /\ what SizeRange = "payload size exceeds supported range")
  /\ ((size buffer <= Z.to_N int64_max)%N ->
      forall run, ingest fuel meta cfg source sink = Some run ->
        exists result,
          calls run = [mkSinkCall meta result (VectorByteSource.make buffer)]
          /\ persist meta result (VectorByteSource.make buffer) sink
             = Some (completion run, sink_after run)
          /\ size_ result = Z.of_N (size buffer)
          /\ (0 <= size_ result <= int64_max)%Z).
Proof.
  intros Hconsume. split.
  - intros Hbig. split; [|reflexivity].
    rewrite ingest_unfold, Hconsume.
    assert (Hlt : (Z.to_N int64_max <? size buffer)%N = true) by (apply N.ltb_lt; lia).
    by rewrite Hlt.
  - intros Hsmall run. rewrite ingest_unfold, Hconsume.
    assert (Hlt : (Z.to_N int64_max <? size buffer)%N = false) by (apply N.ltb_ge; lia).
    rewrite Hlt. cbv zeta.
    destruct (persist _ _ _ sink) as [[c sink']|] eqn:Hp; [|discriminate].
    intros [= <-]. eexists. split; [reflexivity|]. simpl.
    split; [exact Hp|]. split; [reflexivity|].
    unfold int64_max in *. lia.
Qed.

Lemma consumeToBuffer_MemoryByteSource_sample :
  consumeToBuffer 2 (MemoryByteSource.make sample_pdf) size_t_max
  = Some (Returns sample_pdf, MemoryByteSource.mk sample_pdf 15).
Proof. vm_compute. reflexivity. Qed.

Lemma ingest_size_range_witness :
  ((Z.to_N int64_max < size sample_pdf)%N ->
   ingest 2 sample_meta sample_cfg (MemoryByteSource.make sample_pdf)
          RecordingSink.initial
   = Some {| completion := Throws SizeRange;
             source_after := MemoryByteSource.mk sample_pdf 15;
             sink_after := RecordingSink.initial; calls := [] |}
   /\ what SizeRange = "payload size exceeds supported range")
  /\ ((size sample_pdf <= Z.to_N int64_max)%N ->
      forall run,
        ingest 2 sample_meta sample_cfg (MemoryByteSource.make sample_pdf)
               RecordingSink.initial = Some run ->
        exists result,
          calls run = [mkSinkCall sample_meta result (VectorByteSource.make sample_pdf)]
          /\ persist sample_meta result (VectorByteSource.make sample_pdf)
                     RecordingSink.initial
             = Some (completion run, sink_after run)
          /\ size_ result = Z.of_N (size sample_pdf)
          /\ (0 <= size_ result <= int64_max)%Z).
Proof.
  apply (ingest_size_range 2 sample_meta sample_cfg (MemoryByteSource.make sample_pdf)
           RecordingSink.initial sample_pdf (MemoryByteSource.mk sample_pdf 15)).
  vm_compute. reflexivity.
Defined.

(** The size-range branch can be taken: a replay of 2^63 bytes is consumed
    whole and then refused, with the sink untouched. *)
Lemma ingest_size_range_reachable :
  ingest (S huge_length) sample_meta sample_cfg (VectorByteSource.make huge)
         RecordingSink.initial
  = Some {| completion := Throws SizeRange;
            source_after := VectorByteSource.mk huge (size huge);
            sink_after := RecordingSink.initial; calls := [] |}.
Proof.
  assert (Hsize : size huge = (2 ^ 63)%N).
  { unfold size, huge, huge_length. rewrite length_replicate. apply N2Nat.id. }
  assert (Hconsume :
            consumeToBuffer (S huge_length) (VectorByteSource.make huge) size_t_max
            = Some (Returns huge, VectorByteSource.mk huge (size huge))).
  { apply consumeToBuffer_VectorByteSource.
    - rewrite Hsize. unfold size_t_max. rewrite size_t_modulus_eq. lia.
    - reflexivity.
    - unfold huge. rewrite length_replicate. apply Nat.lt_succ_diag_r. }
  rewrite ingest_unfold, Hconsume.
  assert (Hlt : (Z.to_N int64_max <? size huge)%N = true).
  { apply N.ltb_lt. rewrite Hsize. unfold int64_max. lia. }
  by rewrite Hlt.
Qed.

(** C1. When [ingest] returns without an exception, the sink has been
    invoked exactly once, with the caller's metadata, a result record whose
    detected type and digest were computed from the consumed buffer and whose
    size is the buffer's length, and a replay source positioned at the start
    of that same buffer; reading the replay source to its end, with any
    positive chunk size, yields exactly the buffer.  This holds whatever the
    [ok] flag of the result. *)
Theorem ingest_forwards_buffer {Src Snk : Type} `{ByteSource Src} `{IngestSink Snk}
        fuel meta cfg (source : Src) (sink : Snk) run :
  ingest fuel meta cfg source sink = Some run ->
  completion run = Returns tt ->
  exists buffer result,
    consumeToBuffer fuel source size_t_max = Some (Returns buffer, source_after run)
    /\ calls run = [mkSinkCall meta result (VectorByteSource.make buffer)]
    /\ persist meta result (VectorByteSource.make buffer) sink
       = Some (Returns tt, sink_after run)
    /\ detectedMime result = detectMime buffer
    /\ sha256 result = sha256Hex buffer
    /\ size_ result = Z.of_nat (length buffer)
    /\ ok result = empty (errors result)
    /\ (forall maxLen scratch, (0 < maxLen)%N ->
          (exists rs scratch',
              Reads maxLen (VectorByteSource.make buffer) scratch rs
                    (VectorByteSource.mk buffer (size buffer)) scratch'
              /\ AtEof maxLen (VectorByteSource.mk buffer (size buffer)) scratch'
                       (VectorByteSource.mk buffer (size buffer)))
          /\ (forall rs replay' replay'' scratch',
                 Reads maxLen (VectorByteSource.make buffer) scratch rs replay' scratch' ->
                 AtEof maxLen replay' scratch' replay'' ->
                 bytes_of rs = buffer
                 /\ Z.of_nat (length (bytes_of rs)) = size_ result)).
Proof.
  rewrite ingest_unfold.
  destruct (consumeToBuffer fuel source size_t_max) as [[[buffer|e] source']|];
    [| |discriminate].
  2:{ intros [= <-]. discriminate. }
  destruct (Z.to_N int64_max <? size buffer)%N eqn:Hlt.
  { intros [= <-]. discriminate. }
  apply N.ltb_ge in Hlt.
  assert (Hsize : (size buffer < size_t_modulus)%N).
  { rewrite size_t_modulus_eq. unfold int64_max in Hlt. lia. }
  cbv zeta.
  destruct (persist _ _ _ sink) as [[c sink']|] eqn:Hp; [|discriminate].
  intros [= <-]. simpl. intros ->.
  eexists buffer, _. split; [reflexivity|]. split; [reflexivity|].
  split; [exact Hp|]. simpl.
  split; [reflexivity|]. split; [reflexivity|].
  split; [unfold size; lia|]. split; [reflexivity|].
  intros maxLen scratch Hpos. split.
  - destruct (VectorByteSource_drains maxLen (length buffer) Hpos
                (VectorByteSource.make buffer) scratch) as (rs & b' & Hrs & _);
      simpl; try assumption; try lia.
    { unfold size. lia. }
    exists rs, b'. split; [exact Hrs|].
    apply VectorByteSource_AtEof; simpl; try done.
  - intros rs replay' replay'' scratch' Hrs Heof.
    destruct (VectorByteSource_Reads _ _ _ _ _ _ Hrs) as (Hd & Ho & Hle & Hb);
      simpl; try assumption; try lia.
    simpl in Hd, Ho, Hle, Hb.
    apply VectorByteSource_AtEof in Heof; [|assumption|by rewrite Hd].
    destruct Heof as [Hend _]. rewrite Hd in Hend.
    assert (Htot : total_of rs = size buffer) by lia.
    rewrite Hb, Htot, drop_0, size_length, firstn_all.
    split; [reflexivity | unfold size; lia].
Qed.

Lemma ingest_forwards_buffer_witness :
  match ingest 2 sample_meta sample_cfg (MemoryByteSource.make sample_pdf)
               RecordingSink.initial with
  | Some run =>
      completion run = Returns tt
      /\ RecordingSink.forwarded (sink_after run) = sample_pdf
      /\ forwardedMatches (sink_after run) 15 = true
      /\ ok (RecordingSink.lastResult (sink_after run)) = false
      /\ exists buffer result,
          consumeToBuffer 2 (MemoryByteSource.make sample_pdf) size_t_max
          = Some (Returns buffer, source_after run)
          /\ calls run = [mkSinkCall sample_meta result (VectorByteSource.make buffer)]
          /\ persist sample_meta result (VectorByteSource.make buffer)
                     RecordingSink.initial
             = Some (Returns tt, sink_after run)
          /\ detectedMime result = detectMime buffer
          /\ sha256 result = sha256Hex buffer
          /\ size_ result = Z.of_nat (length buffer)
          /\ ok result = empty (errors result)
          /\ (forall maxLen scratch, (0 < maxLen)%N ->
                (exists rs scratch',
                    Reads maxLen (VectorByteSource.make buffer) scratch rs
                          (VectorByteSource.mk buffer (size buffer)) scratch'
                    /\ AtEof maxLen (VectorByteSource.mk buffer (size buffer)) scratch'
                             (VectorByteSource.mk buffer (size buffer)))
                /\ (forall rs replay' replay'' scratch',
                       Reads maxLen (VectorByteSource.make buffer) scratch rs
                             replay' scratch' ->
                       AtEof maxLen replay' scratch' replay'' ->
                       bytes_of rs = buffer
                       /\ Z.of_nat (length (bytes_of rs)) = size_ result))
  | None => False
  end.
Proof.
  destruct (ingest 2 sample_meta sample_cfg (MemoryByteSource.make sample_pdf)
                   RecordingSink.initial) as [run|] eqn:Hrun.
  - assert (Hc : completion run = Returns tt
                 /\ RecordingSink.forwarded (sink_after run) = sample_pdf
                 /\ forwardedMatches (sink_after run) 15 = true
                 /\ ok (RecordingSink.lastResult (sink_after run)) = false).
    { vm_compute in Hrun. inversion Hrun. repeat split. }
    destruct Hc as (Hc & Hf & Hm & Hok).
    repeat (split; [assumption|]).
    exact (ingest_forwards_buffer 2 sample_meta sample_cfg _ _ run Hrun Hc).
  - vm_compute in Hrun. discriminate Hrun.
Defined.

(** The empty upload of [testTinyInput] passes: the sink is called once,
    with [ok] set, size 0 and no bytes. *)
Example ingest_tiny_input :
  ingest 1 tiny_meta tiny_cfg (MemoryByteSource.make []) RecordingSink.initial
  = Some {| completion := Returns tt;
            source_after := MemoryByteSource.make [];
            sink_after :=
              RecordingSink.mk tiny_meta
                (mkIngestResult "application/octet-stream" 0
                   "e3b0c44298fc1c149afbf4c8996fb92427ae41e4649b934ca495991b7852b855"
                   true [])
                [] 0;
            calls :=
              [mkSinkCall tiny_meta
                 (mkIngestResult "application/octet-stream" 0
                    "e3b0c44298fc1c149afbf4c8996fb92427ae41e4649b934ca495991b7852b855"
                    true [])
                 (VectorByteSource.make [])] |}.
Proof. vm_compute. reflexivity. Qed.

(** ** The read contract of the in-memory source *)

Lemma readCalls_cons v buffer maxLen maxLens :
  readCalls v buffer (maxLen :: maxLens) =
  let '(n, buffer', v') := VectorByteSource.read v buffer maxLen in
  let '(rs, v'') := readCalls v' buffer' maxLens in
  ((n, buffer') :: rs, v'').
Proof. reflexivity. Qed.

(** After any number of calls the bytes handed out are the bytes of the data
    from the starting cursor on, and each call returns the smaller of what is
    left and its [maxLen]. *)
Lemma readCalls_spec maxLens :
  forall v buffer rs v',
    readCalls v buffer maxLens = (rs, v') ->
    (size (VectorByteSource.data_ v) < size_t_modulus)%N ->
    (VectorByteSource.offset_ v <= size (VectorByteSource.data_ v))%N ->
    length rs = length maxLens
    /\ v' = VectorByteSource.mk (VectorByteSource.data_ v)
                                (VectorByteSource.offset_ v + total_of rs)
    /\ (forall i,
           bytes_of (take i rs)
           = take (N.to_nat (total_of (take i rs)))
                  (drop (N.to_nat (VectorByteSource.offset_ v)) (VectorByteSource.data_ v))
           /\ (VectorByteSource.offset_ v + total_of (take i rs)
               <= size (VectorByteSource.data_ v))%N)
    /\ (forall i m r,
           maxLens !! i = Some m -> rs !! i = Some r ->
           r.1 = N.min (size (VectorByteSource.data_ v)
                        - (VectorByteSource.offset_ v + total_of (take i rs))) m).
Proof.
  induction maxLens as [|maxLen maxLens IH]; intros v buffer rs v' Hcalls Hsize Hoff.
  - inversion Hcalls; subst. simpl. rewrite N.add_0_r.
    split; [reflexivity|]. split; [by destruct v'|].
    split.
    + intros i. rewrite take_nil. simpl. split; [reflexivity | lia].
    + intros i m r Hm. by rewrite lookup_nil in Hm.
  - rewrite readCalls_cons, VectorByteSource_read_eq in Hcalls by assumption.
    cbv zeta in Hcalls.
    set (n := N.min (size (VectorByteSource.data_ v) - VectorByteSource.offset_ v) maxLen) in *.
    assert (Hn : (n <= size (VectorByteSource.data_ v) - VectorByteSource.offset_ v)%N)
      by (unfold n; lia).
    cbv beta iota in Hcalls.
    match type of Hcalls with
      (let '(_, _) := readCalls ?w ?b _ in _) = _ =>
        destruct (readCalls w b maxLens) as [rs1 v1] eqn:Hrest;
        destruct (IH w b rs1 v1 Hrest) as (Hlen & Hv1 & Hbytes & Hcounts);
        [simpl; assumption | simpl; lia |]
    end.
    inversion Hcalls; subst rs v'. clear Hcalls. simpl in Hv1, Hbytes, Hcounts.
    split; [simpl; by rewrite Hlen|].
    split; [rewrite Hv1; simpl; f_equal; lia|].
    split.
    + intros [|i]; simpl.
      * rewrite N.add_0_r. split; [reflexivity | assumption].
      * destruct (Hbytes i) as [Hb Hle]. split; [|lia].
        rewrite bytes_of_cons, Hb. unfold chunk_of. simpl.
        rewrite take_app_le.
        2:{ rewrite length_take, length_drop. unfold size in *. lia. }
        rewrite take_take, Nat.min_id, <- take_take_drop_N.
        by rewrite drop_drop, <- N2Nat.inj_add.
    + intros [|i] m r Hm Hr; simpl in Hm, Hr.
      * inversion Hm; inversion Hr; subst. simpl. by rewrite N.add_0_r.
      * rewrite (Hcounts i m r Hm Hr). simpl. f_equal. lia.
Qed.

(** C8, as the code has it. For an in-memory source over [data]:
    one [read] never returns more than [maxLen]; it returns zero exactly when
    the cursor is at (or past) the end of the data or [maxLen] is zero;
    a count [n] means that the next [n] bytes of the data were copied to the
    start of the buffer, the rest of the buffer is untouched and the cursor
    has advanced by [n].  (The test's [MemoryByteSource] reads the same way.)
    For any sequence of calls on a fresh source, the bytes handed out so far
    are always a prefix of the data, and a call returns zero exactly when
    its [maxLen] is zero or all of the data has been handed out. *)
Theorem VectorByteSource_read_contract (data : list byte) :
  (size data < size_t_modulus)%N ->
  (forall offset buffer maxLen,
      let '(n, buffer', v') :=
        VectorByteSource.read (VectorByteSource.mk data offset) buffer maxLen in
      (n <= maxLen)%N
      /\ (n = 0%N <-> (size data <= offset)%N \/ maxLen = 0%N)
      /\ take (N.to_nat n) buffer' = take (N.to_nat n) (drop (N.to_nat offset) data)
      /\ length (take (N.to_nat n) buffer') = N.to_nat n
      /\ drop (N.to_nat n) buffer' = drop (N.to_nat n) buffer
      /\ v' = VectorByteSource.mk data (offset + n)
      /\ MemoryByteSource.read (MemoryByteSource.mk data offset) buffer maxLen
         = (n, buffer', MemoryByteSource.mk data (offset + n)))
  /\ (forall buffer maxLens,
         let '(rs, v') := readCalls (VectorByteSource.make data) buffer maxLens in
         v' = VectorByteSource.mk data (total_of rs)
         /\ (total_of rs <= size data)%N
         /\ (forall i, bytes_of (take i rs)
                       = take (N.to_nat (total_of (take i rs))) data)
         /\ (forall i m r,
                maxLens !! i = Some m -> rs !! i = Some r ->
                (r.1 <= m)%N
                /\ (r.1 = 0%N <-> m = 0%N \/ bytes_of (take i rs) = data))).
Proof.
  intros Hsize. split.
  - intros offset buffer maxLen.
    pose proof (MemoryByteSource_read_eq (MemoryByteSource.mk data offset) buffer maxLen)
      as Hmem.
    cbn [MemoryByteSource.data_ MemoryByteSource.offset_] in Hmem.
    rewrite VectorByteSource_read_eq in * by (simpl; assumption).
    cbn [VectorByteSource.data_ VectorByteSource.offset_] in *. cbv zeta in *.
    set (n := N.min (size data - offset) maxLen) in *.
    assert (Hlen : length (take (N.to_nat n) (drop (N.to_nat offset) data)) = N.to_nat n).
    { rewrite length_take, length_drop. unfold n, size. lia. }
    split; [unfold n; lia|].
    split; [unfold n; lia|].
    split; [by rewrite take_app_le, take_take, Nat.min_id by lia|].
    split; [rewrite take_app_le, take_take, Nat.min_id by lia; exact Hlen|].
    split; [by rewrite drop_app_length' by (symmetry; exact Hlen)|].
    split; [reflexivity | exact Hmem].
  - intros buffer maxLens.
    destruct (readCalls (VectorByteSource.make data) buffer maxLens) as [rs v'] eqn:Hcalls.
    destruct (readCalls_spec maxLens _ _ _ _ Hcalls) as (Hlen & Hv & Hbytes & Hcounts);
      [simpl; assumption | simpl; lia |].
    simpl in Hv, Hbytes, Hcounts.
    assert (Hprefix : forall i, bytes_of (take i rs)
                                = take (N.to_nat (total_of (take i rs))) data).
    { intros i. destruct (Hbytes i) as [Hb _]. by rewrite drop_0 in Hb. }
    split; [exact Hv|].
    split.
    { destruct (Hbytes (length rs)) as [_ Hle]. rewrite firstn_all in Hle. lia. }
    split; [exact Hprefix|].
    intros i m r Hm Hr.
    rewrite (Hcounts i m r Hm Hr), Hprefix.
    destruct (Hbytes i) as [_ Hle].
    split; [lia|].
    split.
    + intros Hz.
      destruct (N.eq_dec m 0%N) as [?|Hne]; [by left|right].
      assert (Hall : total_of (take i rs) = size data) by lia.
      by rewrite Hall, size_length, firstn_all.
    + intros [->|Hall]; [lia|].
      assert (Hl : length (take (N.to_nat (total_of (take i rs))) data) = length data)
        by (by rewrite Hall).
      rewrite length_take in Hl. unfold size in *. lia.
Qed.

(** Fifteen bytes read with the limits 4, 0, 100 and 7: the counts are
    4, 0, 11 and 0. *)
Lemma VectorByteSource_read_contract_witness :
  (size sample_pdf < size_t_modulus)%N
  /\ map fst (readCalls (VectorByteSource.make sample_pdf) [x00; x00; x00; x00]
                        [4; 0; 100; 7]%N).1 = [4; 0; 11; 0]%N
  /\ let '(rs, v') := readCalls (VectorByteSource.make sample_pdf)
                                [x00; x00; x00; x00] [4; 0; 100; 7]%N in
     v' = VectorByteSource.mk sample_pdf (total_of rs)
     /\ (total_of rs <= size sample_pdf)%N
     /\ (forall i, bytes_of (take i rs)
                   = take (N.to_nat (total_of (take i rs))) sample_pdf)
     /\ (forall i m r,
            [4; 0; 100; 7]%N !! i = Some m -> rs !! i = Some r ->
            (r.1 <= m)%N
            /\ (r.1 = 0%N <-> m = 0%N \/ bytes_of (take i rs) = sample_pdf)).
Proof.
  split; [reflexivity|]. split; [reflexivity|].
  exact (proj2 (VectorByteSource_read_contract sample_pdf eq_refl)
               [x00; x00; x00; x00] [4; 0; 100; 7]%N).
Defined.

(** C8, as stated, fails: with [maxLen = 0] the source returns zero although
    none of its fifteen bytes has been yielded. *)
Lemma VectorByteSource_read_zero_before_eof :
  ~ zero_only_at_eof (VectorByteSource.make sample_pdf) [x00] 0.
Proof.
  unfold zero_only_at_eof. intros Hclaim.
  specialize (Hclaim eq_refl). vm_compute in Hclaim. by apply Hclaim.
Qed.

(** ** The policy comparator *)

Local Ltac each_char c := destruct c as [[] [] [] [] [] [] [] []].

Lemma isspace_is_whitespace c : isspace c = is_whitespace c.
Proof. each_char c; reflexivity. Qed.

Lemma tolower_fold_case c : tolower c = fold_case c.
Proof. each_char c; reflexivity. Qed.

Lemma tolower_idem c : tolower (tolower c) = tolower c.
Proof. each_char c; reflexivity. Qed.

Lemma isspace_tolower c : isspace (tolower c) = isspace c.
Proof. each_char c; reflexivity. Qed.

Lemma tolower_semicolon c : tolower c = ";"%char -> c = ";"%char.
Proof. each_char c; vm_compute; intros Hc; (reflexivity || discriminate Hc). Qed.

Lemma stripMime_chars mime :
  stripMime mime = string_of_list_ascii (strip_chars (list_ascii_of_string mime)).
Proof. reflexivity. Qed.

Lemma substr0_find_char l :
  substr0 l (find_char l ";"%char) = discard_params l.
Proof.
  induction l as [|c l IH]; simpl; [reflexivity|].
  destruct (Ascii.eqb c ";") eqn:E; simpl; [reflexivity|].
  destruct (find_char l ";") as [n|]; simpl in *; f_equal; exact IH.
Qed.

Lemma discard_params_no_semicolon l : ";"%char ∉ discard_params l.
Proof.
  induction l as [|c l IH]; simpl; [apply not_elem_of_nil|].
  destruct (Ascii.eqb c ";") eqn:E; [apply not_elem_of_nil|].
  apply Ascii.eqb_neq in E. rewrite not_elem_of_cons. split; [congruence | exact IH].
Qed.

Lemma discard_params_id l : ";"%char ∉ l -> discard_params l = l.
Proof.
  induction l as [|c l IH]; simpl; [reflexivity|].
  rewrite not_elem_of_cons. intros [Hc Hl].
  destruct (Ascii.eqb c ";") eqn:E.
  - apply Ascii.eqb_eq in E. congruence.
  - by rewrite IH.
Qed.

Lemma drop_find_if l :
  drop (find_if l (fun ch => negb (isspace ch))) l = trim_leading l.
Proof.
  induction l as [|c l IH]; simpl; [reflexivity|].
  rewrite <- isspace_is_whitespace.
  destruct (isspace c); simpl; [exact IH | reflexivity].
Qed.

Lemma trim_leading_clean l : starts_clean (trim_leading l).
Proof.
  induction l as [|c l IH]; simpl; [exact I|].
  destruct (is_whitespace c) eqn:E; [exact IH|].
  simpl. by rewrite isspace_is_whitespace.
Qed.

Lemma find_if_clean l :
  starts_clean l -> find_if l (fun ch => negb (isspace ch)) = O.
Proof. destruct l as [|c l]; simpl; [reflexivity|]. by intros ->. Qed.

Lemma starts_clean_take n l : starts_clean l -> starts_clean (take n l).
Proof. destruct l, n; simpl; auto. Qed.

Lemma starts_clean_map l : starts_clean l -> starts_clean (map tolower l).
Proof. destruct l; simpl; [auto|]. by rewrite isspace_tolower. Qed.

Lemma take_find_if_rev l :
  take (length l - find_if (rev l) (fun ch => negb (isspace ch))) l
  = rev (trim_leading (rev l)).
Proof.
  rewrite <- drop_find_if.
  rewrite List.skipn_rev, rev_involutive.
  reflexivity.
Qed.

(** The code's stripping is the specification's normal form. *)
Lemma strip_chars_normal l :
  strip_chars l = map fold_case (trim (discard_params l)).
Proof.
  unfold strip_chars, trim. cbv zeta.
  rewrite substr0_find_char, drop_find_if, take_find_if_rev.
  apply map_ext. intros c. apply tolower_fold_case.
Qed.

Lemma stripMime_normalise mime : stripMime mime = normalise mime.
Proof. rewrite stripMime_chars, strip_chars_normal. reflexivity. Qed.

Lemma strip_chars_stripped l : is_stripped (strip_chars l).
Proof.
  rewrite strip_chars_normal. unfold trim.
  set (a := discard_params l).
  assert (Ha : ";"%char ∉ a) by apply discard_params_no_semicolon.
  set (b := trim_leading a).
  assert (Hb : forall c, c ∈ b -> c ∈ a).
  { intros c. unfold b. rewrite <- drop_find_if. apply subseteq_drop. }
  set (d := rev (trim_leading (rev b))).
  assert (Hd : forall c, c ∈ d -> c ∈ b).
  { intros c. unfold d. rewrite <- take_find_if_rev. apply subseteq_take. }
  repeat split.
  - rewrite list_elem_of_In, in_map_iff. intros (c & Hc & Hin).
    rewrite <- tolower_fold_case in Hc.
    apply tolower_semicolon in Hc. subst c.
    apply list_elem_of_In in Hin. auto.
  - rewrite (map_ext _ _ (fun c => eq_sym (tolower_fold_case c))).
    apply starts_clean_map. unfold d. rewrite <- take_find_if_rev.
    apply starts_clean_take. apply trim_leading_clean.
  - rewrite (map_ext _ _ (fun c => eq_sym (tolower_fold_case c))).
    rewrite <- map_rev. apply starts_clean_map.
    unfold d. rewrite rev_involutive. apply trim_leading_clean.
  - apply Forall_forall. intros c. rewrite list_elem_of_In, in_map_iff.
    intros (c' & <- & _). rewrite <- tolower_fold_case. apply tolower_idem.
Qed.

Lemma strip_chars_fixed l : is_stripped l -> strip_chars l = l.
Proof.
  intros (Hsemi & Hlead & Htrail & Hlow).
  unfold strip_chars. cbv zeta.
  rewrite substr0_find_char, discard_params_id by assumption.
  rewrite (find_if_clean l Hlead), drop_0.
  rewrite (find_if_clean (rev l) Htrail), Nat.sub_0_r, firstn_all.
  induction Hlow as [|c l Hc Hl IH]; simpl; [reflexivity|].
  rewrite Hc. f_equal.
  clear -Hl. induction Hl as [|c l Hc Hl IH]; simpl; [reflexivity | by rewrite Hc, IH].
Qed.

(** C9. The comparator holds of two content-type strings exactly when they
    are identical after discarding everything from the first [;] onward,
    trimming white space at both ends and folding case; it is therefore
    reflexive, symmetric and transitive; and stripping a stripped string
    changes nothing. *)
Theorem equalsIgnoreParams_equivalence :
  (forall lhs rhs, equalsIgnoreParams lhs rhs = true <-> normalise lhs = normalise rhs)
  /\ (forall s, stripMime s = normalise s)
  /\ (forall s, equalsIgnoreParams s s = true)
  /\ (forall s t, equalsIgnoreParams s t = true -> equalsIgnoreParams t s = true)
  /\ (forall s t u, equalsIgnoreParams s t = true -> equalsIgnoreParams t u = true ->
                    equalsIgnoreParams s u = true)
  /\ (forall s, stripMime (stripMime s) = stripMime s).
Proof.
  split; [|split; [|split; [|split; [|split]]]].
  - intros lhs rhs. by rewrite equalsIgnoreParams_true, !stripMime_normalise.
  - apply stripMime_normalise.
  - intros s. by apply equalsIgnoreParams_true.
  - intros s t. rewrite !equalsIgnoreParams_true. congruence.
  - intros s t u. rewrite !equalsIgnoreParams_true. congruence.
  - intros s. rewrite !stripMime_chars, list_ascii_of_string_of_list_ascii.
    f_equal. apply strip_chars_fixed, strip_chars_stripped.
Qed.

(** ** The validator, rule by rule *)

(** C3. The violation list of the validator is the list of the five messages
    in their fixed order with the messages of the rules that do not fire
    left out; each message is present exactly when its rule fires (the
    length rule yields "negative" or "mismatch", never both; the ceiling
    rule fires only for a non-negative ceiling and regardless of a declared
    length; the two MIME rules compare content types after their parameters
    are cut off at the first [;], white space is trimmed at both ends and
    letters are folded to lower case), and no message is repeated. *)
Theorem validate_exact meta measuredSize detectedType cfg :
  let v := validate meta measuredSize detectedType cfg in
  v `sublist_of` violation_order
  /\ NoDup v
  /\ ("contentLength is negative" ∈ v <->
      hasContentLength meta = true /\ (contentLength meta < 0)%Z)
  /\ ("contentLength mismatch" ∈ v <->
      hasContentLength meta = true /\ (0 <= contentLength meta)%Z
      /\ contentLength meta <> measuredSize)
  /\ ~ ("contentLength is negative" ∈ v /\ "contentLength mismatch" ∈ v)
  /\ ("exceeds maxContentLength" ∈ v <->
      (0 <= maxContentLength cfg)%Z /\ (maxContentLength cfg < measuredSize)%Z)
  /\ ("claimedMime does not match detectedMime" ∈ v <->
      claimedMime meta <> "" /\ normalise (claimedMime meta) <> normalise detectedType)
  /\ ("detectedMime not accepted" ∈ v <->
      acceptedMimes cfg <> [] /\
      forall candidate, candidate ∈ acceptedMimes cfg ->
                        normalise detectedType <> normalise candidate).
Proof.
  intros v.
  assert (Hv : v = validate meta measuredSize detectedType cfg) by reflexivity.
  rewrite validate_rules in Hv.
  set (c1 := hasContentLength meta && (contentLength meta <? 0)%Z) in Hv.
  set (c2 := hasContentLength meta && negb (contentLength meta <? 0)%Z
             && negb (measuredSize =? contentLength meta)%Z) in Hv.
  set (c3 := (0 <=? maxContentLength cfg)%Z
             && (maxContentLength cfg <? measuredSize)%Z) in Hv.
  set (c4 := negb (string_empty (claimedMime meta))
             && negb (equalsIgnoreParams (claimedMime meta) detectedType)) in Hv.
  set (c5 := negb (empty (acceptedMimes cfg))
             && negb (isAcceptedMime detectedType (acceptedMimes cfg))) in Hv.
  assert (H1 : c1 = true <-> hasContentLength meta = true /\ (contentLength meta < 0)%Z).
  { unfold c1. rewrite andb_true_iff, Z.ltb_lt. tauto. }
  assert (H2 : c2 = true <-> hasContentLength meta = true
               /\ (0 <= contentLength meta)%Z /\ contentLength meta <> measuredSize).
  { unfold c2. rewrite !andb_true_iff, !negb_true_iff, Z.ltb_ge, Z.eqb_neq.
    split; intros; destruct_and?; repeat split; auto. }
  assert (H12 : ~ (c1 = true /\ c2 = true)).
  { unfold c1, c2. destruct (hasContentLength meta), (contentLength meta <? 0)%Z;
      simpl; intros [? ?]; discriminate. }
  assert (H3 : c3 = true <-> (0 <= maxContentLength cfg)%Z
               /\ (maxContentLength cfg < measuredSize)%Z).
  { unfold c3. rewrite andb_true_iff, Z.leb_le, Z.ltb_lt. tauto. }
  assert (H4 : c4 = true <-> claimedMime meta <> ""
               /\ normalise (claimedMime meta) <> normalise detectedType).
  { unfold c4. rewrite andb_true_iff, !negb_true_iff, string_empty_false,
      equalsIgnoreParams_false, !stripMime_normalise. tauto. }
  assert (H5 : c5 = true <-> acceptedMimes cfg <> [] /\
               forall candidate, candidate ∈ acceptedMimes cfg ->
                                 normalise detectedType <> normalise candidate).
  { unfold c5. rewrite andb_true_iff, !negb_true_iff, empty_false,
      isAcceptedMime_false.
    split; intros [Hne Hall]; (split; [exact Hne|]); intros candidate Hin;
      specialize (Hall candidate Hin); by rewrite ?stripMime_normalise in *. }
  rewrite <- H1, <- H2, <- H3, <- H4, <- H5.
  clearbody c1 c2 c3 c4 c5. clear H1 H2 H3 H4 H5. subst v. rewrite Hv. clear Hv.
  split; [|split; [|split; [|split; [|split; [|split; [|split]]]]]].
  - unfold violation_order.
    destruct c1, c2, c3, c4, c5; simpl;
      repeat first [apply sublist_skip | apply sublist_cons | apply sublist_nil].
  - destruct c1, c2, c3, c4, c5; simpl;
      try (exfalso; apply H12; split; reflexivity);
      repeat (apply NoDup_cons_2;
              [rewrite ?elem_of_cons, ?elem_of_nil; intros Hm;
               repeat destruct Hm as [Hm|Hm]; (done || discriminate Hm)|]);
      apply NoDup_nil_2.
  - settle_member.
  - settle_member.
  - intros [Ha Hb]. apply H12. split.
    + revert Ha. apply iff_forward. settle_member.
    + revert Hb. apply iff_forward. settle_member.
  - settle_member.
  - settle_member.
  - settle_member.
Qed.

(** ** The type sniffer *)

Lemma Byte_eqb_true x y : Byte.eqb x y = true <-> x = y.
Proof. split; [apply Byte.byte_dec_bl | apply Byte.byte_dec_lb]. Qed.

Lemma size_le_length {A} (l : list A) (n : N) :
  (n <=? size l)%N = true <-> (N.to_nat n <= length l)%nat.
Proof. rewrite N.leb_le. unfold size. lia. Qed.

Lemma equal_prefix (range1 range2 : list byte) :
  equal range1 range2 = true <-> range1 `prefix_of` range2.
Proof.
  revert range2. induction range1 as [|x r1 IH]; intros [|y r2]; simpl.
  - split; [intros _; apply prefix_nil | reflexivity].
  - split; [intros _; apply prefix_nil | reflexivity].
  - split; [discriminate | intros Hp; by apply prefix_nil_not in Hp].
  - rewrite andb_true_iff, Byte_eqb_true, IH. split.
    + intros [-> Hp]. by apply prefix_cons.
    + intros Hp. split; [by apply prefix_cons_inv_1 in Hp | by apply prefix_cons_inv_2 in Hp].
Qed.

(** The four indexed comparisons of a 4-byte signature. *)
Lemma four_bytes_prefix (bytes : list byte) (s0 s1 s2 s3 : byte) :
  ((4 <=? size bytes)%N
   && (Byte.eqb (bytes !!! 0%nat) s0 && Byte.eqb (bytes !!! 1%nat) s1
       && Byte.eqb (bytes !!! 2%nat) s2 && Byte.eqb (bytes !!! 3%nat) s3)) = true
  <-> [s0; s1; s2; s3] `prefix_of` bytes.
Proof.
  rewrite andb_true_iff, size_le_length, <- equal_prefix.
  destruct bytes as [|b0 [|b1 [|b2 [|b3 rest]]]]; simpl;
    try (split; [intros [Hl _]; lia | intros Hp; try discriminate Hp;
                 repeat (apply andb_true_iff in Hp as [_ Hp]); discriminate Hp]).
  unfold lookup_total, list_lookup_total. simpl.
  rewrite andb_true_r, !andb_true_iff, !Byte_eqb_true.
  split.
  - intros (_ & ((-> & ->) & ->) & ->). done.
  - intros (-> & -> & -> & ->). split; [lia | done].
Qed.

Lemma append_cons (c : ascii) (s t : string) :
  (String c s ++ t)%string = String c (s ++ t)%string.
Proof. reflexivity. Qed.

Lemma append_empty (t : string) : ("" ++ t)%string = t.
Proof. reflexivity. Qed.

Lemma string_prefix_app (p s : string) :
  String.prefix p s = true <-> exists t, s = (p ++ t)%string.
Proof.
  revert s. induction p as [|a p IH]; intros s.
  - destruct s; simpl; split; eauto.
  - destruct s as [|b s]; simpl.
    + split; [discriminate | intros [t Ht]; discriminate Ht].
    + destruct (ascii_dec a b) as [->|Hne].
      * rewrite IH. split; intros [t Ht]; exists t;
          rewrite append_cons in *; congruence.
      * split; [discriminate | intros [t Ht]; rewrite append_cons in Ht; congruence].
Qed.

Lemma string_prefix_empty (p : string) :
  String.prefix p "" = true <-> p = "".
Proof. destruct p; simpl; split; congruence. Qed.

(** [find] succeeds exactly on the strings that contain the needle. *)
Lemma find_occurs (haystack needle : string) :
  (exists pos, find haystack needle = Some pos) <->
  exists before after, haystack = (before ++ needle ++ after)%string.
Proof.
  induction haystack as [|c h IH].
  - cbn [find]. destruct (String.prefix needle "") eqn:Hp.
    + apply string_prefix_empty in Hp. subst needle.
      split; [intros _; by exists ""%string, ""%string | intros _; by exists O].
    + split; [intros [pos Hpos]; discriminate Hpos|].
      intros (b & a & Hba). destruct b as [|c' b].
      * rewrite append_empty in Hba.
        destruct needle; [discriminate Hp | discriminate Hba].
      * discriminate Hba.
  - cbn [find]. destruct (String.prefix needle (String c h)) eqn:Hp.
    + split; [intros _ | intros _; by exists O].
      apply string_prefix_app in Hp as [t Ht]. by exists ""%string, t.
    + split.
      * intros [pos Hpos].
        destruct (find h needle) as [q|] eqn:Hq; [|discriminate Hpos].
        destruct (proj1 IH (ex_intro _ q eq_refl)) as (b & a & ->).
        by exists (String c b), a.
      * intros (b & a & Hba). destruct b as [|c' b].
        -- rewrite append_empty in Hba.
           assert (String.prefix needle (String c h) = true) as Hp'
             by (apply string_prefix_app; by exists a).
           congruence.
        -- rewrite append_cons in Hba. inversion Hba; subst.
           destruct (proj2 IH (ex_intro _ b (ex_intro _ a eq_refl))) as [q Hq].
           rewrite Hq. by exists (S q).
Qed.

Lemma string_of_list_ascii_app (a b : list ascii) :
  string_of_list_ascii (a ++ b) = (string_of_list_ascii a ++ string_of_list_ascii b)%string.
Proof.
  induction a as [|c a IH]; simpl; [reflexivity | by rewrite append_cons, IH].
Qed.

Lemma list_ascii_of_string_app (a b : string) :
  list_ascii_of_string (a ++ b) = (list_ascii_of_string a ++ list_ascii_of_string b)%list.
Proof.
  induction a as [|c a IH]; [reflexivity|].
  rewrite append_cons. simpl. by rewrite IH.
Qed.

Lemma string_of_list_byte_app (a b : list byte) :
  string_of_list_byte (a ++ b) = (string_of_list_byte a ++ string_of_list_byte b)%string.
Proof. unfold string_of_list_byte. by rewrite map_app, string_of_list_ascii_app. Qed.

Lemma list_byte_of_string_app (a b : string) :
  list_byte_of_string (a ++ b) = (list_byte_of_string a ++ list_byte_of_string b)%list.
Proof. unfold list_byte_of_string. by rewrite list_ascii_of_string_app, map_app. Qed.

(** Searching the text of a byte range finds the needle exactly when its
    bytes occur in the range. *)
Lemma find_bytes (haystack : list byte) (needle : string) :
  (exists pos, find (string_of_list_byte haystack) needle = Some pos)
  <-> Occurs (list_byte_of_string needle) haystack.
Proof.
  rewrite find_occurs. unfold Occurs. split.
  - intros (b & a & Hba).
    exists (list_byte_of_string b), (list_byte_of_string a).
    rewrite <- !list_byte_of_string_app, <- Hba.
    by rewrite list_byte_of_string_of_list_byte.
  - intros (b & a & ->).
    exists (string_of_list_byte b), (string_of_list_byte a).
    by rewrite !string_of_list_byte_app, string_of_list_byte_of_string.
Qed.

Lemma scanned_eq (bytes : list byte) :
  take (N.to_nat (N.min (size bytes) 4096)) bytes = scanned bytes.
Proof. unfold scanned, size. f_equal. lia. Qed.

(** C4. [detectMime] is a total function that classifies by the first
    signature that matches, in the order PDF, PNG, ZIP container with a
    word-processing part; anything else, and in particular anything shorter
    than four bytes, is an octet stream. *)
Theorem detectMime_first_match (bytes : list byte) :
  (pdfSignature `prefix_of` bytes -> detectMime bytes = "application/pdf")
  /\ (~ pdfSignature `prefix_of` bytes -> pngSignature `prefix_of` bytes ->
      detectMime bytes = "image/png")
  /\ (~ pdfSignature `prefix_of` bytes -> ~ pngSignature `prefix_of` bytes ->
      IsWordContainer bytes ->
      detectMime bytes
      = "application/vnd.openxmlformats-officedocument.wordprocessingml.document")
  /\ (~ pdfSignature `prefix_of` bytes -> ~ pngSignature `prefix_of` bytes ->
      ~ IsWordContainer bytes ->
      detectMime bytes = "application/octet-stream")
  /\ ((length bytes < 4)%nat -> detectMime bytes = "application/octet-stream")
  /\ detectMime [] = "application/octet-stream".
Proof.
  assert (Hshort : forall sig : list byte,
             (4 <= length sig)%nat -> (length bytes < 4)%nat -> ~ sig `prefix_of` bytes).
  { intros sig Hsig Hlen Hp. apply prefix_length in Hp. lia. }
  unfold detectMime. rewrite scanned_eq.
  pose proof (four_bytes_prefix bytes "%"%byte "P"%byte "D"%byte "F"%byte) as Hpdf.
  pose proof (four_bytes_prefix bytes "P"%byte "K"%byte x03 x04) as Hzip.
  change ["%"%byte; "P"%byte; "D"%byte; "F"%byte] with pdfSignature in Hpdf.
  change ["P"%byte; "K"%byte; x03; x04] with zipSignature in Hzip.
  assert (Hpng : (8 <=? size bytes)%N && equal pngMagic bytes = true
                 <-> pngSignature `prefix_of` bytes).
  { rewrite andb_true_iff, size_le_length, equal_prefix.
    change pngMagic with pngSignature.
    split; [tauto | intros Hp; split; [|exact Hp]].
    apply prefix_length in Hp. exact Hp. }
  assert (Hscan : (match find (string_of_list_byte (scanned bytes)) "word/" with
                   | Some _ => true
                   | None =>
                       match find (string_of_list_byte (scanned bytes))
                                  "[Content_Types].xml" with
                       | Some _ => true
                       | None => false
                       end
                   end) = true
                  <-> Occurs (list_byte_of_string "word/") (scanned bytes)
                      \/ Occurs (list_byte_of_string "[Content_Types].xml") (scanned bytes)).
  { rewrite <- !find_bytes.
    destruct (find (string_of_list_byte (scanned bytes)) "word/") as [p|];
      [split; [intros _; left; by exists p | reflexivity]|].
    destruct (find (string_of_list_byte (scanned bytes)) "[Content_Types].xml") as [p|];
      [split; [intros _; right; by exists p | reflexivity]|].
    split; [discriminate | intros [[p Hp]|[p Hp]]; discriminate Hp]. }
  unfold IsWordContainer.
  destruct ((4 <=? size bytes)%N
            && (Byte.eqb (bytes !!! 0%nat) "%" && Byte.eqb (bytes !!! 1%nat) "P"
                && Byte.eqb (bytes !!! 2%nat) "D" && Byte.eqb (bytes !!! 3%nat) "F"))
    eqn:E1.
  { apply proj1 in Hpdf. specialize (Hpdf eq_refl). rename Hpdf into P1.
    repeat split; intros; try reflexivity; try contradiction.
    exfalso. by apply (Hshort pdfSignature). }
  assert (Npdf : ~ pdfSignature `prefix_of` bytes)
    by (intros Hp; apply Hpdf in Hp; congruence).
  destruct ((8 <=? size bytes)%N && equal pngMagic bytes) eqn:E2.
  { apply proj1 in Hpng. specialize (Hpng eq_refl). rename Hpng into P2.
    repeat split; intros; try reflexivity; try contradiction.
    exfalso. apply (Hshort pngSignature); [simpl; lia | assumption | assumption]. }
  assert (Npng : ~ pngSignature `prefix_of` bytes)
    by (intros Hp; apply Hpng in Hp; congruence).
  match goal with |- context [if ?c then _ else _] => destruct c eqn:E3 end.
  - apply andb_true_iff in E3 as [E3 E4]. apply Hzip in E3. apply Hscan in E4.
    repeat split; intros; try reflexivity; try contradiction.
    + exfalso. tauto.
    + exfalso. by apply (Hshort zipSignature).
  - assert (Nword : ~ (zipSignature `prefix_of` bytes
                       /\ (Occurs (list_byte_of_string "word/") (scanned bytes)
                           \/ Occurs (list_byte_of_string "[Content_Types].xml")
                                     (scanned bytes)))).
    { intros [Hz Hs]. apply Hzip in Hz. apply Hscan in Hs.
      rewrite Hz, Hs in E3. discriminate E3. }
    repeat split; intros; try reflexivity; try contradiction.
Qed.

(** ** The digest engine: hexadecimal output *)

Lemma hexDigit_lower d : is_lower_hex (hexDigit d) = true.
Proof.
  unfold hexDigit.
  generalize (Z.to_nat d). intros n.
  do 16 (destruct n as [|n]; [reflexivity|]). reflexivity.
Qed.

Lemma nibbles_zero k : nibbles k 0 = replicate k "0"%char.
Proof.
  induction k as [|k IH]; [reflexivity|].
  cbn [nibbles]. change (0 / 16)%Z with 0%Z. rewrite IH.
  change (hexDigit (0 mod 16)) with "0"%char.
  by rewrite <- replicate_cons_app.
Qed.

Lemma length_nibbles k n : length (nibbles k n) = k.
Proof.
  revert n. induction k as [|k IH]; intros n; [reflexivity|].
  cbn [nibbles]. rewrite length_app, IH. simpl. lia.
Qed.

(** The digits [hexDigits] produces, padded with zeros to [k] places, are the
    [k] low digits of the number. *)
Lemma hexDigits_nibbles k :
  forall fuel n acc,
    (1 <= k <= fuel)%nat -> (0 <= n < 16 ^ Z.of_nat k)%Z ->
    exists ds, hexDigits fuel n acc = (ds ++ acc)%list
               /\ (length ds <= k)%nat
               /\ (replicate (k - length ds) "0"%char ++ ds)%list = nibbles k n.
Proof.
  induction k as [|k IH]; intros fuel n acc Hk Hn; [lia|].
  destruct fuel as [|fuel]; [lia|].
  cbn [hexDigits nibbles].
  destruct (n / 16 =? 0)%Z eqn:Hq.
  - apply Z.eqb_eq in Hq. exists [hexDigit (n mod 16)].
    split; [reflexivity|]. split; [simpl; lia|].
    rewrite Hq, nibbles_zero. simpl. by rewrite Nat.sub_0_r.
  - apply Z.eqb_neq in Hq.
    assert (Hk' : (1 <= k)%nat).
    { destruct k; [|lia]. exfalso. apply Hq.
      change (16 ^ Z.of_nat 1)%Z with 16%Z in Hn. apply Z.div_small. lia. }
    assert (Hn' : (0 <= n / 16 < 16 ^ Z.of_nat k)%Z).
    { rewrite Nat2Z.inj_succ, Z.pow_succ_r in Hn by lia.
      split; [apply Z.div_pos; lia | apply Z.div_lt_upper_bound; lia]. }
    destruct (IH fuel (n / 16)%Z (hexDigit (n mod 16) :: acc)) as (ds & Hds & Hlen & Hpad);
      [lia | exact Hn' |].
    exists (ds ++ [hexDigit (n mod 16)])%list.
    split; [by rewrite Hds, <- app_assoc|].
    split; [rewrite length_app; simpl; lia|].
    rewrite length_app, app_assoc. simpl.
    replace (S k - (length ds + 1))%nat with (k - length ds)%nat by lia.
    by rewrite Hpad.
Qed.

Lemma putHexWord_nibbles word :
  (0 <= word < 2 ^ 32)%Z -> putHexWord word = nibbles 8 word.
Proof.
  intros Hw. unfold putHexWord.
  destruct (hexDigits_nibbles 8 16 word []) as (ds & Hds & Hlen & Hpad);
    [lia | exact Hw |].
  rewrite app_nil_r in Hds. rewrite Hds. exact Hpad.
Qed.

Lemma hex_of_word_nibbles word :
  (0 <= word < 2 ^ 32)%Z -> hex_of_word word = nibbles 8 word.
Proof.
  intros Hw. unfold hex_of_word, hex_of_octet. cbn [nibbles app].
  change (2 ^ 24)%Z with 16777216%Z. change (2 ^ 16)%Z with 65536%Z.
  change (2 ^ 8)%Z with 256%Z.
  repeat (apply (f_equal2 cons);
          [apply (f_equal hexDigit); Z.to_euclidean_division_equations; lia|]).
  reflexivity.
Qed.

(** ** The digest engine: blocks and padding *)

Lemma for_range_ext {St : Type} (body body' : nat -> St -> St) count :
  forall start st,
    (forall i s, (start <= i < start + count)%nat -> body i s = body' i s) ->
    for_range start count body st = for_range start count body' st.
Proof.
  induction count as [|count IH]; intros start st Hext; [reflexivity|].
  simpl. rewrite Hext by lia. apply IH. intros i s Hi. apply Hext. lia.
Qed.

(** The compression function reads 64 bytes through its pointer. *)
Lemma sha256ProcessBlock_take state block :
  sha256ProcessBlock state (take 64 block) = sha256ProcessBlock state block.
Proof.
  assert (Hw : for_range 0 16 (sha256LoadWord (take 64 block)) (replicate 64 0%Z)
               = for_range 0 16 (sha256LoadWord block) (replicate 64 0%Z)).
  { apply for_range_ext. intros i w Hi. unfold sha256LoadWord.
    rewrite !lookup_total_take_lt by lia. reflexivity. }
  unfold sha256ProcessBlock. rewrite Hw. reflexivity.
Qed.

Lemma u32_is_u32 z : is_u32 (u32 z).
Proof. unfold is_u32, u32. apply Z.mod_pos_bound. reflexivity. Qed.

Lemma sha256ProcessBlock_words state block :
  Forall is_u32 (sha256ProcessBlock state block)
  /\ length (sha256ProcessBlock state block) = 8%nat.
Proof.
  unfold sha256ProcessBlock. cbv zeta. split; [|reflexivity].
  repeat (apply Forall_cons; split; [apply u32_is_u32|]). apply Forall_nil_2.
Qed.

Lemma sha256_blocks_S n msg state :
  sha256_blocks (S n) msg state
  = sha256_blocks n (drop 64 msg) (sha256ProcessBlock state (take 64 msg)).
Proof. reflexivity. Qed.

Lemma sha256_blocks_add a b :
  forall msg state,
    sha256_blocks (a + b) msg state
    = sha256_blocks b (drop (64 * a) msg) (sha256_blocks a msg state).
Proof.
  induction a as [|a IH]; intros msg state.
  - by rewrite Nat.mul_0_r, drop_0.
  - cbn [Nat.add]. rewrite !sha256_blocks_S, IH, drop_drop.
    do 2 f_equal. lia.
Qed.

Lemma sha256_blocks_app n :
  forall msg rest state,
    (64 * n <= length msg)%nat ->
    sha256_blocks n (msg ++ rest) state = sha256_blocks n msg state.
Proof.
  induction n as [|n IH]; intros msg rest state Hlen; [reflexivity|].
  rewrite !sha256_blocks_S.
  rewrite take_app_le, drop_app_le by lia.
  apply IH. rewrite length_drop. lia.
Qed.

Lemma sha256_blocks_words n msg state :
  (1 <= n)%nat ->
  Forall is_u32 (sha256_blocks n msg state)
  /\ length (sha256_blocks n msg state) = 8%nat.
Proof.
  revert msg state. induction n as [|n IH]; intros msg state Hn; [lia|].
  rewrite sha256_blocks_S.
  destruct n as [|n]; [apply sha256ProcessBlock_words | apply IH; lia].
Qed.

(** The block loop of the code runs over the whole 64-byte blocks. *)
Lemma sha256Blocks_spec n :
  forall fuel data state processed,
    (size data + 64 < size_t_modulus)%N ->
    (processed + 64 * N.of_nat n <= size data < processed + 64 * (N.of_nat n + 1))%N ->
    (n <= fuel)%nat ->
    sha256Blocks fuel data state processed
    = (sha256_blocks n (drop (N.to_nat processed) data) state,
       (processed + 64 * N.of_nat n)%N).
Proof.
  induction n as [|n IH]; intros fuel data state processed Hsize Hn Hfuel.
  - replace (processed + 64 * N.of_nat 0)%N with processed by lia.
    destruct fuel as [|fuel]; [reflexivity|]. cbn [sha256Blocks sha256_blocks].
    unfold blockSize. rewrite wrap_size_small by lia.
    assert (Hc : (processed + 64 <=? size data)%N = false) by (apply N.leb_gt; lia).
    by rewrite Hc.
  - destruct fuel as [|fuel]; [lia|]. cbn [sha256Blocks].
    unfold blockSize. rewrite wrap_size_small by lia.
    assert (Hc : (processed + 64 <=? size data)%N = true) by (apply N.leb_le; lia).
    rewrite Hc, IH by lia.
    rewrite sha256_blocks_S, sha256ProcessBlock_take, drop_drop.
    f_equal; [|lia]. f_equal. f_equal. lia.
Qed.

Lemma insert_take_snoc {A} (l : list A) i x :
  (i < length l)%nat -> take (S i) (<[i:=x]> l) = (take i l ++ [x])%list.
Proof.
  intros Hi. rewrite insert_take_drop by exact Hi.
  rewrite take_app_ge by (rewrite length_take; lia).
  rewrite length_take, Nat.min_l by lia.
  replace (S i - i)%nat with 1%nat by lia. reflexivity.
Qed.

(** A run of stores at consecutive indices. *)
Lemma for_range_inserts {A} (f : nat -> A) (base count : nat) :
  forall start (l : list A),
    (base + start + count <= length l)%nat ->
    for_range start count (fun i fb => <[(base + i)%nat := f i]> fb) l
    = (take (base + start) l ++ map f (seq start count)
       ++ drop (base + start + count) l)%list.
Proof.
  induction count as [|count IH]; intros start l Hlen.
  - simpl. by rewrite Nat.add_0_r, take_drop.
  - cbn [for_range seq map]. rewrite IH by (rewrite length_insert; lia).
    replace (base + S start)%nat with (S (base + start)) by lia.
    rewrite insert_take_snoc by lia.
    rewrite drop_insert_lt by lia.
    rewrite <- app_assoc. simpl.
    by replace (base + start + S count)%nat with (S (base + start + count)) by lia.
Qed.

Lemma byte_of_N_be64 (bitLength : N) (i : nat) :
  (i < 8)%nat ->
  byte_of_N (N.land (N.shiftr bitLength (56 - N.of_nat i * 8)) 255)
  = byte_of_N (bitLength / 256 ^ (7 - N.of_nat i)).
Proof.
  intros Hi. unfold byte_of_N.
  change 255%N with (N.ones 8). rewrite N.land_ones, N.shiftr_div_pow2.
  change (2 ^ 8)%N with 256%N. rewrite N.Div0.mod_mod by lia.
  do 8 (destruct i as [|i]; [reflexivity|]). lia.
Qed.

Lemma be64_stores (bitLength : N) :
  map (fun i : nat =>
         byte_of_N (N.land (N.shiftr bitLength (56 - N.of_nat i * 8)) 255))
      (seq 0 8)
  = be64 bitLength.
Proof.
  unfold be64. apply map_ext_in. intros i Hi.
  apply in_seq in Hi. apply byte_of_N_be64. lia.
Qed.

Lemma length_be64 n : length (be64 n) = 8%nat.
Proof. reflexivity. Qed.

(** The final block buffer after the copy, the marker and the length. *)
Lemma finalBlock_contents (tail : list byte) (bitLength : N) (paddingIndex : nat) :
  (length tail < paddingIndex)%nat -> (paddingIndex + 8 <= 128)%nat ->
  for_range 0 8
    (fun i fb =>
       <[ (paddingIndex + i)%nat :=
            byte_of_N (N.land (N.shiftr bitLength (56 - N.of_nat i * 8)) 255) ]> fb)
    (<[ length tail := x80 ]>
       (memcpy (replicate 128 x00) tail (size tail)))
  = (tail ++ x80 :: replicate (paddingIndex - length tail - 1) x00
     ++ be64 bitLength ++ replicate (128 - paddingIndex - 8) x00)%list.
Proof.
  intros Hlen Hpad.
  unfold memcpy. rewrite size_length, firstn_all, drop_replicate.
  rewrite insert_app_r_alt, Nat.sub_diag by lia.
  replace (128 - length tail)%nat with (S (127 - length tail)) by lia.
  cbn [replicate]. cbn [insert list_insert].
  rewrite for_range_inserts.
  2:{ rewrite length_app. simpl. rewrite length_replicate. lia. }
  rewrite be64_stores, !Nat.add_0_r.
  rewrite take_app_ge by lia.
  replace (paddingIndex - length tail)%nat with (S (paddingIndex - length tail - 1)) at 1 by lia.
  rewrite firstn_cons, take_replicate, Nat.min_l by lia.
  rewrite drop_app_ge by lia.
  replace (paddingIndex + 8 - length tail)%nat with (S (paddingIndex + 7 - length tail)) by lia.
  rewrite skipn_cons, drop_replicate.
  rewrite <- !app_assoc.
  by replace (127 - length tail - (paddingIndex + 7 - length tail))%nat
    with (128 - paddingIndex - 8)%nat by lia.
Qed.

Local Opaque sha256ProcessBlock.

(** The words [sha256Hex] prints are the digest of the padded message. *)
Lemma sha256Hex_digest (data : list byte) :
  (8 * size data < 2 ^ 64)%N ->
  sha256Hex data = string_of_list_ascii (concat (map putHexWord (sha256_digest data))).
Proof.
  intros Hbits.
  set (q := (length data / 64)%nat).
  set (r := (length data mod 64)%nat).
  assert (Hqr : length data = (64 * q + r)%nat) by (unfold q, r; apply Nat.div_mod_eq).
  assert (Hr : (r < 64)%nat) by (unfold r; apply Nat.mod_upper_bound; lia).
  assert (Hsize : size data = (64 * N.of_nat q + N.of_nat r)%N) by (unfold size; lia).
  unfold sha256Hex.
  rewrite (sha256Blocks_spec q (length data) data sha256StateInit 0%N);
    [| rewrite size_t_modulus_eq; lia | lia | lia].
  cbv beta iota zeta.
  set (tail := drop (N.to_nat (0 + 64 * N.of_nat q)) data).
  assert (Htail : length tail = r) by (unfold tail; rewrite length_drop; lia).
  assert (Hdata : data = (take (64 * q) data ++ tail)%list).
  { unfold tail. replace (N.to_nat (0 + 64 * N.of_nat q)) with (64 * q)%nat by lia.
    by rewrite take_drop. }
  replace (size data - (0 + 64 * N.of_nat q))%N with (size tail) by (unfold size; lia).
  rewrite size_length.
  rewrite N.mod_small by lia.
  replace (N.to_nat (0 + 64 * N.of_nat q)) with (64 * q)%nat in * by lia.
  rewrite drop_0.
  unfold sha256_digest, sha256_pad.
  set (z := Z.to_nat ((55 - Z.of_nat (length data)) mod 64)%Z).
  set (L := (8 * size data)%N).
  replace (size data * 8)%N with L by (unfold L; lia).
  do 2 f_equal. f_equal.
  assert (Hdrop : forall rest, drop (64 * q) (data ++ rest) = (tail ++ rest)%list).
  { intros rest. rewrite drop_app_le by lia. unfold tail.
    by replace (N.to_nat (0 + 64 * N.of_nat q)) with (64 * q)%nat by lia. }
  destruct (size tail + 9 <=? blockSize)%N eqn:Hc.
  - apply N.leb_le in Hc. unfold blockSize, size in Hc.
    change (negb (blockSize - 8 =? blockSize - 8)%N) with false. cbv iota.
    change (N.to_nat (blockSize - 8)) with 56%nat.
    rewrite finalBlock_contents by lia.
    assert (Hz : z = (55 - r)%nat).
    { unfold z. rewrite Hqr. apply Nat2Z.inj. rewrite Z2Nat.id by (apply Z.mod_pos_bound; lia).
      Z.to_euclidean_division_equations. lia. }
    replace (56 - length tail - 1)%nat with z by lia.
    assert (Hlen : (length (data ++ x80 :: replicate z x00 ++ be64 L) / 64 = q + 1)%nat).
    { rewrite length_app, length_cons, length_app, length_replicate, length_be64.
      replace (length data + S (z + 8))%nat with ((q + 1) * 64)%nat by lia.
      apply Nat.div_mul. lia. }
    rewrite Hlen, sha256_blocks_add.
    rewrite sha256_blocks_app by lia.
    rewrite Hdrop.
    cbn [sha256_blocks].
    rewrite <- (sha256ProcessBlock_take _ (tail ++ _)).
    apply (f_equal (sha256ProcessBlock _)).
    replace (tail ++ x80 :: replicate z x00 ++ be64 L ++ replicate (128 - 56 - 8) x00)%list
      with ((tail ++ x80 :: replicate z x00 ++ be64 L)
            ++ replicate (128 - 56 - 8) x00)%list
      by (rewrite <- app_assoc; simpl; by rewrite <- app_assoc).
    rewrite take_app_le; [reflexivity|].
    rewrite length_app, length_cons, length_app, length_replicate, length_be64. lia.
  - apply N.leb_gt in Hc. unfold blockSize, size in Hc.
    change (negb (2 * blockSize - 8 =? blockSize - 8)%N) with true. cbv iota.
    change (N.to_nat (2 * blockSize - 8)) with 120%nat.
    change (N.to_nat blockSize) with 64%nat.
    rewrite finalBlock_contents by lia.
    assert (Hz : z = (119 - r)%nat).
    { unfold z. rewrite Hqr. apply Nat2Z.inj. rewrite Z2Nat.id by (apply Z.mod_pos_bound; lia).
      Z.to_euclidean_division_equations. lia. }
    replace (120 - length tail - 1)%nat with z by lia.
    change (128 - 120 - 8)%nat with 0%nat. cbn [replicate]. rewrite app_nil_r.
    assert (Hlen : (length (data ++ x80 :: replicate z x00 ++ be64 L) / 64 = q + 2)%nat).
    { rewrite length_app, length_cons, length_app, length_replicate, length_be64.
      replace (length data + S (z + 8))%nat with ((q + 2) * 64)%nat by lia.
      apply Nat.div_mul. lia. }
    rewrite Hlen, sha256_blocks_add.
    rewrite sha256_blocks_app by lia.
    rewrite Hdrop.
    cbn [sha256_blocks].
    by rewrite !sha256ProcessBlock_take.
Qed.

Lemma sha256_pad_length (msg : list byte) :
  exists m, (1 <= m)%nat /\ length (sha256_pad msg) = (m * 64)%nat.
Proof.
  unfold sha256_pad.
  rewrite length_app, length_cons, length_app, length_replicate, length_be64.
  set (z := Z.to_nat ((55 - Z.of_nat (length msg)) mod 64)%Z).
  assert (Hz : Z.of_nat z = ((55 - Z.of_nat (length msg)) mod 64)%Z).
  { unfold z. rewrite Z2Nat.id; [reflexivity|]. apply Z.mod_pos_bound. lia. }
  exists ((length msg + S (z + 8)) / 64)%nat.
  assert (Hm : ((length msg + S (z + 8)) mod 64 = 0)%nat).
  { apply Nat2Z.inj. rewrite Nat2Z.inj_mod. 
    replace (Z.of_nat (length msg + S (z + 8))) with (Z.of_nat (length msg) + Z.of_nat z + 9)%Z
      by lia.
    rewrite Hz. Z.to_euclidean_division_equations. lia. }
  pose proof (Nat.div_mod_eq (length msg + S (z + 8)) 64) as Hdm.
  split; [|lia].
  apply Nat.div_le_lower_bound; lia.
Qed.

Lemma sha256_digest_words (msg : list byte) :
  Forall is_u32 (sha256_digest msg) /\ length (sha256_digest msg) = 8%nat.
Proof.
  unfold sha256_digest. cbv zeta.
  destruct (sha256_pad_length msg) as (m & Hm & Hlen).
  apply sha256_blocks_words. rewrite Hlen, Nat.div_mul by lia. exact Hm.
Qed.

Lemma length_string_of_list_ascii l :
  String.length (string_of_list_ascii l) = length l.
Proof. induction l as [|c l IH]; simpl; [reflexivity | by rewrite IH]. Qed.

Lemma hex_of_word_lower word : forallb is_lower_hex (hex_of_word word) = true.
Proof.
  unfold hex_of_word, hex_of_octet. cbn [app forallb].
  by rewrite !hexDigit_lower.
Qed.

Local Transparent sha256ProcessBlock.

(** C2. For every buffer whose bit length fits in 64 bits (the domain of
    SHA-256), [sha256Hex] is the standard digest: the hash state after the
    64-byte blocks of the message followed by one byte 0x80, the least
    number of zero bytes that fills up to the last eight bytes of a block,
    and the bit length as a big-endian 64-bit integer; printed word by word,
    most significant byte first, as 64 lower-case hexadecimal characters.
    The empty message, "abc" and the 56-byte message (whose padding takes a
    second block) hash to their published values. *)
Theorem sha256Hex_standard (data : list byte) :
  (8 * size data < 2 ^ 64)%N ->
  sha256Hex data = sha256_reference data
  /\ String.length (sha256Hex data) = 64%nat
  /\ forallb is_lower_hex (list_ascii_of_string (sha256Hex data)) = true
  /\ (exists zeros blocks,
         sha256_pad data
         = (data ++ x80 :: replicate zeros x00 ++ be64 (8 * size data))%list
         /\ (zeros < 64)%nat
         /\ (1 <= blocks)%nat
         /\ length (sha256_pad data) = (blocks * 64)%nat
         /\ sha256_digest data = sha256_blocks blocks (sha256_pad data) sha256StateInit)
  /\ sha256Hex []
     = "e3b0c44298fc1c149afbf4c8996fb92427ae41e4649b934ca495991b7852b855"
  /\ sha256Hex sample_abc
     = "ba7816bf8f01cfea414140de5dae2223b00361a396177a9cb410ff61f20015ad"
  /\ sha256Hex sample_two_blocks
     = "248d6a61d20638b8e5c026930c3e6039a33ce45964ff2167f6ecedd419db06c1".
Proof.
  intros Hbits.
  destruct (sha256_digest_words data) as [Hwords Hlen].
  assert (Heq : sha256Hex data = sha256_reference data).
  { rewrite sha256Hex_digest by exact Hbits. unfold sha256_reference.
    do 2 f_equal. apply map_ext_in. intros word Hin.
    apply list_elem_of_In in Hin.
    rewrite Forall_forall in Hwords. specialize (Hwords word Hin).
    by rewrite putHexWord_nibbles, hex_of_word_nibbles. }
  split; [exact Heq|]. rewrite Heq. unfold sha256_reference.
  split; [|split; [|split]].
  - rewrite length_string_of_list_ascii.
    destruct (sha256_digest data) as [|w0 [|w1 [|w2 [|w3 [|w4 [|w5 [|w6 [|w7 [|w8 ws]]]]]]]]];
      try discriminate Hlen.
    reflexivity.
  - rewrite list_ascii_of_string_of_list_ascii.
    clear. induction (sha256_digest data) as [|w ws IH]; [reflexivity|].
    cbn [map concat]. rewrite forallb_app, hex_of_word_lower, IH. reflexivity.
  - destruct (sha256_pad_length data) as (m & Hm & Hpad).
    exists (Z.to_nat ((55 - Z.of_nat (length data)) mod 64)%Z), m.
    split; [reflexivity|].
    split.
    { pose proof (Z.mod_pos_bound (55 - Z.of_nat (length data)) 64 eq_refl). lia. }
    split; [exact Hm|]. split; [exact Hpad|].
    unfold sha256_digest. cbv zeta. by rewrite Hpad, Nat.div_mul by lia.
  - repeat split; vm_compute; reflexivity.
Qed.

Lemma sha256Hex_standard_witness :
  sha256Hex sample_pdf = sha256_reference sample_pdf
  /\ String.length (sha256Hex sample_pdf) = 64%nat
  /\ sha256Hex sample_pdf
     = "d0975b81b2e708ccc0710aaa2011269e27ea6567fedca01cbae6b85ec20d9984".
Proof.
  destruct (sha256Hex_standard sample_pdf eq_refl) as (Heq & Hlen & _).
  split; [exact Heq|]. split; [exact Hlen|].
  vm_compute. reflexivity.
Defined.

(** * Further properties of the code *)

(** ** The bounded consumer, continued *)

Lemma length_bytes_of rs : (size (bytes_of rs) <= total_of rs)%N.
Proof.
  induction rs as [|[n b] rs IH]; [reflexivity|].
  rewrite bytes_of_cons. unfold size in *. rewrite length_app. unfold chunk_of.
  cbn [fst snd total_of foldr]. rewrite length_take.
  change (foldr (fun r acc => (r.1 + acc)%N) 0%N rs) with (total_of rs). lia.
Qed.

Section ConsumerMore.
Context {Src : Type} `{ByteSource Src}.

(** A returning run read the source up to an end-of-stream report; no
    arithmetic assumption is needed for this part. *)
Lemma consumeLoop_returns_reads (src0 : Src) maxBytes fuel :
  forall rs0 src scratch total buffer src',
    Reads scratch_size src0 scratch0 rs0 src scratch ->
    consumeLoop fuel src maxBytes (bytes_of rs0) scratch total
    = Some (Returns buffer, src') ->
    exists rs src1 scratch1,
      Reads scratch_size src0 scratch0 rs src1 scratch1
      /\ AtEof scratch_size src1 scratch1 src'
      /\ buffer = bytes_of rs.
Proof.
  induction fuel as [|fuel IH]; intros rs0 src scratch total buffer src' Hreads Hrun;
    [discriminate|].
  rewrite consumeLoop_step in Hrun.
  destruct (read src scratch scratch_size) as [n scratch1 src1|w src1] eqn:Hr;
    [|discriminate].
  destruct (n =? 0)%N eqn:Hn.
  - apply N.eqb_eq in Hn. subst n. inversion Hrun; subst.
    exists rs0, src, scratch. repeat split; try assumption. by exists scratch1.
  - apply N.eqb_neq in Hn. cbv zeta in Hrun.
    destruct (maxBytes <? wrap_size (total + n))%N; [discriminate|].
    apply (IH (rs0 ++ [(n, scratch1)])%list src1 scratch1 (wrap_size (total + n))).
    + eapply Reads_snoc; eauto.
    + rewrite bytes_of_app. unfold bytes_of at 2. simpl. rewrite app_nil_r. exact Hrun.
Qed.


End ConsumerMore.

(** X1. Whatever the source, a buffer that [consumeToBuffer] returns is never
    longer than [maxBytes] (for runs whose totals fit in a [size_t]). *)
Theorem consumeToBuffer_within_ceiling {Src : Type} `{ByteSource Src}
        (src : Src) (maxBytes : N) fuel buffer src' :
  (forall rs src1 scratch1,
      Reads scratch_size src scratch0 rs src1 scratch1 ->
      (total_of rs < size_t_modulus)%N) ->
  consumeToBuffer fuel src maxBytes = Some (Returns buffer, src') ->
  (size buffer <= maxBytes)%N.
Proof.
  intros Hfit Hrun.
  pose proof (consumeLoop_sound src maxBytes Hfit fuel [] src scratch0
                (Returns buffer) src' (Reads_nil _ _ _)) as Hsound.
  simpl in Hsound.
  destruct Hsound as (rs & src1 & scratch1 & _ & _ & Hle & ->).
  - lia.
  - exact Hrun.
  - pose proof (length_bytes_of rs). lia.
Qed.

Lemma consumeToBuffer_within_ceiling_witness :
  (size sample_pdf <= 15)%N.
Proof.
  apply (consumeToBuffer_within_ceiling (VectorByteSource.make sample_pdf) 15 2
           sample_pdf (VectorByteSource.mk sample_pdf 15)).
  - intros rs v' scratch' Hrs.
    apply (VectorByteSource_totals_fit sample_pdf rs v' scratch'); [reflexivity | exact Hrs].
  - vm_compute. reflexivity.
Defined.


(** X3. [ingest] calls the sink only after the source has reported end of
    stream, and the replay source it hands over holds every chunk the source
    yielded, in order. *)
Theorem ingest_sink_after_eof {Src Snk : Type} `{ByteSource Src} `{IngestSink Snk}
        fuel meta cfg (source : Src) (sink : Snk) run call :
  ingest fuel meta cfg source sink = Some run ->
  call ∈ calls run ->
  exists rs src1 scratch1,
    Reads scratch_size source scratch0 rs src1 scratch1
    /\ AtEof scratch_size src1 scratch1 (source_after run)
    /\ call_data call = VectorByteSource.make (bytes_of rs)
    /\ call_meta call = meta.
Proof.
  rewrite ingest_unfold.
  destruct (consumeToBuffer fuel source size_t_max) as [[[buffer|e] source']|] eqn:Hc;
    [| |discriminate].
  - destruct (consumeLoop_returns_reads source size_t_max fuel [] source scratch0 0%N
                buffer source' (Reads_nil _ _ _) Hc) as (rs & src1 & scratch1 & Hrs & Heof & ->).
    destruct (Z.to_N int64_max <? size (bytes_of rs))%N.
    + intros [= <-] Hin. inversion Hin.
    + cbv zeta. destruct (persist _ _ _ sink) as [[c sink']|]; [|discriminate].
      intros [= <-] Hin. simpl in Hin. apply list_elem_of_singleton in Hin. subst call.
      exists rs, src1, scratch1. simpl. repeat split; assumption.
  - intros [= <-] Hin. inversion Hin.
Qed.

Lemma ingest_sink_after_eof_witness :
  match ingest 2 sample_meta sample_cfg (MemoryByteSource.make sample_pdf)
               RecordingSink.initial with
  | Some run =>
      calls run <> []
      /\ forall call, call ∈ calls run ->
           exists rs src1 scratch1,
             Reads scratch_size (MemoryByteSource.make sample_pdf) scratch0 rs src1 scratch1
             /\ AtEof scratch_size src1 scratch1 (source_after run)
             /\ call_data call = VectorByteSource.make (bytes_of rs)
             /\ call_meta call = sample_meta
  | None => False
  end.
Proof.
  destruct (ingest 2 sample_meta sample_cfg (MemoryByteSource.make sample_pdf)
                   RecordingSink.initial) as [run|] eqn:Hrun.
  - split.
    + vm_compute in Hrun. inversion Hrun. discriminate.
    + intros call Hin.
      exact (ingest_sink_after_eof 2 sample_meta sample_cfg _ _ run call Hrun Hin).
  - vm_compute in Hrun. discriminate Hrun.
Defined.

(** ** In-memory sources under the consumer *)

(** [MemoryByteSource] and [VectorByteSource] run the same loop. *)
Lemma consumeLoop_MemoryByteSource fuel :
  forall (m : MemoryByteSource.t) maxBytes data scratch total,
    consumeLoop fuel m maxBytes data scratch total
    = option_map (fun r : Completion (list byte) * VectorByteSource.t =>
                    (r.1, MemoryByteSource_of r.2))
        (consumeLoop fuel (MemoryByteSource_view m) maxBytes data scratch total).
Proof.
  induction fuel as [|fuel IH]; intros m maxBytes data scratch total; [reflexivity|].
  rewrite !consumeLoop_step.
  change (read m scratch scratch_size)
    with (let '(n, b, m') := MemoryByteSource.read m scratch scratch_size in
          ReadOk n b m').
  change (read (MemoryByteSource_view m) scratch scratch_size)
    with (let '(n, b, v') :=
            VectorByteSource.read (MemoryByteSource_view m) scratch scratch_size in
          ReadOk n b v').
  rewrite MemoryByteSource_read_eq. fold (MemoryByteSource_view m).
  destruct (VectorByteSource.read (MemoryByteSource_view m) scratch scratch_size)
    as [[n scratch1] v1].
  destruct (n =? 0)%N; [reflexivity|]. cbv zeta.
  destruct (maxBytes <? wrap_size (total + n))%N; [reflexivity|].
  destruct v1 as [d o]. apply (IH (MemoryByteSource.mk d o)).
Qed.

(** An in-memory source longer than the ceiling makes the loop throw, after
    reading at most one scratch buffer beyond the ceiling. *)
Lemma consumeLoop_VectorByteSource_throws maxBytes (k : nat) :
  forall v data scratch,
    (size (VectorByteSource.data_ v) < size_t_modulus)%N ->
    (VectorByteSource.offset_ v <= maxBytes < size (VectorByteSource.data_ v))%N ->
    (N.to_nat (maxBytes - VectorByteSource.offset_ v) < k)%nat ->
    exists offset,
      consumeLoop k v maxBytes data scratch (VectorByteSource.offset_ v)
      = Some (Throws BufferCeiling, VectorByteSource.mk (VectorByteSource.data_ v) offset)
      /\ (maxBytes < offset <= size (VectorByteSource.data_ v))%N
      /\ (offset <= maxBytes + scratch_size)%N.
Proof.
  induction k as [|k IH]; intros v data scratch Hsize Hoff Hk; [lia|].
  rewrite consumeLoop_step.
  unfold read, VectorByteSource_ByteSource.
  rewrite VectorByteSource_read_eq by assumption. cbv zeta.
  set (n := N.min (size (VectorByteSource.data_ v) - VectorByteSource.offset_ v) scratch_size).
  assert (Hn : (0 < n <= scratch_size)%N) by (unfold n, scratch_size; lia).
  assert (Hn' : (n <= size (VectorByteSource.data_ v) - VectorByteSource.offset_ v)%N)
    by (unfold n; lia).
  assert (Hz : (n =? 0)%N = false) by (apply N.eqb_neq; lia).
  cbv beta iota.
  rewrite Hz, wrap_size_small by lia.
  destruct (maxBytes <? VectorByteSource.offset_ v + n)%N eqn:Hlt.
  - apply N.ltb_lt in Hlt. eexists. split; [reflexivity|]. lia.
  - apply N.ltb_ge in Hlt.
    match goal with |- context [consumeLoop k ?w _ ?d ?b _] =>
      destruct (IH w d b) as (offset & Hrun & Hb1 & Hb2); simpl; try assumption; try lia
    end.
    exists offset. simpl in Hrun. split; [exact Hrun|]. split; assumption.
Qed.

(** X4. Consuming a [MemoryByteSource] over [data], given more fuel than
    bytes: if the data fits under the ceiling the buffer returned is [data]
    itself and the source is left at its end; otherwise the consumer throws
    the capacity error, having read past the ceiling by at most one scratch
    buffer. *)
Theorem consumeToBuffer_MemoryByteSource (data : list byte) (maxBytes : N) (fuel : nat) :
  (size data < size_t_modulus)%N ->
  (maxBytes < size_t_modulus)%N ->
  (length data < fuel)%nat ->
  ((size data <= maxBytes)%N ->
   consumeToBuffer fuel (MemoryByteSource.make data) maxBytes
   = Some (Returns data, MemoryByteSource.mk data (size data)))
  /\ ((maxBytes < size data)%N ->
      exists offset,
        consumeToBuffer fuel (MemoryByteSource.make data) maxBytes
        = Some (Throws BufferCeiling, MemoryByteSource.mk data offset)
        /\ (maxBytes < offset <= size data)%N
        /\ (offset <= maxBytes + scratch_size)%N).
Proof.
  intros Hsize Hmax Hfuel.
  unfold consumeToBuffer. rewrite consumeLoop_MemoryByteSource.
  change (MemoryByteSource_view (MemoryByteSource.make data))
    with (VectorByteSource.make data).
  split.
  - intros Hle.
    pose proof (consumeToBuffer_VectorByteSource data maxBytes fuel Hle Hmax Hfuel) as Hrun.
    unfold consumeToBuffer in Hrun. rewrite Hrun. reflexivity.
  - intros Hlt.
    pose proof (consumeLoop_VectorByteSource_throws maxBytes fuel
                  (VectorByteSource.make data) [] scratch0) as Hthrow.
    cbn [VectorByteSource.data_ VectorByteSource.offset_ VectorByteSource.make] in Hthrow.
    destruct Hthrow as (offset & Hrun & Hb1 & Hb2);
      [assumption | lia | unfold size in *; lia |].
    exists offset. fold scratch0. rewrite Hrun. repeat split; try lia.
Qed.

Lemma consumeToBuffer_MemoryByteSource_witness :
  consumeToBuffer 16 (MemoryByteSource.make sample_pdf) 15
  = Some (Returns sample_pdf, MemoryByteSource.mk sample_pdf (size sample_pdf))
  /\ exists offset,
      consumeToBuffer 16 (MemoryByteSource.make sample_pdf) 14
      = Some (Throws BufferCeiling, MemoryByteSource.mk sample_pdf offset)
      /\ (14 < offset <= size sample_pdf)%N
      /\ (offset <= 14 + scratch_size)%N.
Proof.
  split.
  - apply (proj1 (consumeToBuffer_MemoryByteSource sample_pdf 15 16
                    eq_refl eq_refl ltac:(simpl; lia))).
    vm_compute. discriminate.
  - apply (proj2 (consumeToBuffer_MemoryByteSource sample_pdf 14 16
                    eq_refl eq_refl ltac:(simpl; lia))).
    reflexivity.
Defined.

(** X21. [forwardedMatches] casts the recorded size to a [size_t]: a
    negative size wraps to at least 2^63, so it matches no expected count
    below 2^63, whatever the sink has recorded besides. *)
Theorem forwardedMatches_negative_size (sink : RecordingSink.t) (expectedBytes : N) :
  (- 2 ^ 63 <= size_ (RecordingSink.lastResult sink) < 0)%Z ->
  (expectedBytes < 2 ^ 63)%N ->
  forwardedMatches sink expectedBytes = false.
Proof.
  intros Hneg Hexp. unfold forwardedMatches.
  assert (Hcast : (size_t_of_int64 (size_ (RecordingSink.lastResult sink))
                   =? expectedBytes)%N = false).
  { apply N.eqb_neq. unfold size_t_of_int64. rewrite size_t_modulus_eq.
    set (z := size_ (RecordingSink.lastResult sink)) in *.
    change (Z.of_N 18446744073709551616) with 18446744073709551616%Z.
    assert (Hmod : (z mod 18446744073709551616 = z + 18446744073709551616)%Z).
    { symmetry. apply (Z.mod_unique _ _ (-1)); lia. }
    rewrite Hmod. change (2 ^ 63)%N with 9223372036854775808%N in Hexp.
    change (2 ^ 63)%Z with 9223372036854775808%Z in Hneg. lia. }
  rewrite Hcast. apply andb_false_r.
Qed.

Lemma forwardedMatches_negative_size_witness :
  forwardedMatches
    (RecordingSink.mk tiny_meta
       {| detectedMime := "application/octet-stream"; size_ := -1;
          sha256 := ""; ok := true; errors := [] |} [] 0) 0 = false.
Proof. apply forwardedMatches_negative_size; simpl; lia. Defined.

(** X5. The harness of the tests, for any data whose size an [int64_t] can
    hold: [ingest] from a [MemoryByteSource] into a [RecordingSink] returns
    normally whatever the metadata and the policy; the source is left at its
    end, the sink has recorded the metadata, the bytes themselves and their
    count, and a result with the measured size, detected type, digest and
    violations; [forwardedMatches] holds. *)
Theorem ingest_recording_harness (data : list byte) meta cfg (fuel : nat)
        (sink : RecordingSink.t) :
  (size data <= Z.to_N int64_max)%N ->
  (length data < fuel)%nat ->
  let errors := validate meta (Z.of_N (size data)) (detectMime data) cfg in
  let result :=
    {| detectedMime := detectMime data; size_ := Z.of_N (size data);
       sha256 := sha256Hex data; ok := empty errors; errors := errors |} in
  ingest fuel meta cfg (MemoryByteSource.make data) sink
  = Some {| completion := Returns tt;
            source_after := MemoryByteSource.mk data (size data);
            sink_after := RecordingSink.mk meta result data (size data);
            calls := [mkSinkCall meta result (VectorByteSource.make data)] |}
  /\ forwardedMatches (RecordingSink.mk meta result data (size data)) (size data) = true.
Proof.
  intros Hsize Hfuel errors result.
  assert (Hmod : (size data < size_t_modulus)%N).
  { rewrite size_t_modulus_eq. unfold int64_max in Hsize. lia. }
  split.
  - rewrite ingest_unfold.
    rewrite (proj1 (consumeToBuffer_MemoryByteSource data size_t_max fuel Hmod
                      size_t_max_lt Hfuel)).
    2:{ unfold size_t_max. lia. }
    assert (Hlt : (Z.to_N int64_max <? size data)%N = false) by (apply N.ltb_ge; lia).
    rewrite Hlt. cbv zeta. fold errors. fold result.
    by rewrite RecordingSink_persist_replay.
  - unfold forwardedMatches, size_t_of_int64.
    cbn [RecordingSink.forwardedBytes RecordingSink.forwarded
         RecordingSink.lastResult size_ result].
    rewrite Z.mod_small by (rewrite size_t_modulus_eq in *; lia).
    rewrite N2Z.id, !N.eqb_refl. reflexivity.
Qed.

Lemma ingest_recording_harness_witness :
  ingest 16 sample_meta sample_cfg (MemoryByteSource.make sample_pdf) RecordingSink.initial
  = Some {| completion := Returns tt;
            source_after := MemoryByteSource.mk sample_pdf (size sample_pdf);
            sink_after :=
              RecordingSink.mk sample_meta
                {| detectedMime := detectMime sample_pdf;
                   size_ := Z.of_N (size sample_pdf);
                   sha256 := sha256Hex sample_pdf;
                   ok := empty (validate sample_meta (Z.of_N (size sample_pdf))
                                         (detectMime sample_pdf) sample_cfg);
                   errors := validate sample_meta (Z.of_N (size sample_pdf))
                                      (detectMime sample_pdf) sample_cfg |}
                sample_pdf (size sample_pdf);
            calls :=
              [mkSinkCall sample_meta
                 {| detectedMime := detectMime sample_pdf;
                    size_ := Z.of_N (size sample_pdf);
                    sha256 := sha256Hex sample_pdf;
                    ok := empty (validate sample_meta (Z.of_N (size sample_pdf))
                                          (detectMime sample_pdf) sample_cfg);
                    errors := validate sample_meta (Z.of_N (size sample_pdf))
                                       (detectMime sample_pdf) sample_cfg |}
                 (VectorByteSource.make sample_pdf)] |}.
Proof.
  apply (ingest_recording_harness sample_pdf sample_meta sample_cfg 16
           RecordingSink.initial).
  - vm_compute. discriminate.
  - simpl. lia.
Defined.

(** ** The validator, continued *)

(** X6. An upload passes (the validator reports nothing) exactly when: a
    declared length is non-negative and equals the measured size; a
    non-negative ceiling is not exceeded; a non-empty claimed type matches
    the detected one; and a non-empty accepted list has a match. *)
Theorem validate_passes meta measuredSize detectedType cfg :
  validate meta measuredSize detectedType cfg = [] <->
  (hasContentLength meta = true ->
   (0 <= contentLength meta)%Z /\ contentLength meta = measuredSize)
  /\ ((0 <= maxContentLength cfg)%Z -> (measuredSize <= maxContentLength cfg)%Z)
  /\ (claimedMime meta <> "" -> stripMime (claimedMime meta) = stripMime detectedType)
  /\ (acceptedMimes cfg <> [] ->
      exists candidate, candidate ∈ acceptedMimes cfg
                        /\ stripMime detectedType = stripMime candidate).
Proof.
  rewrite validate_rules.
  assert (Hnil : forall (c : bool) (m : string) (rest : list string),
             ((if c then [m] else []) ++ rest)%list = [] <-> c = false /\ rest = []).
  { intros [] m rest; simpl; split; try discriminate; try tauto.
    intros [? ?]; discriminate. }
  rewrite !Hnil.
  assert (Hlast : forall (c : bool) (m : string),
             (if c then [m] else []) = [] <-> c = false).
  { intros [] m; split; congruence. }
  rewrite Hlast.
  rewrite !andb_false_iff, !negb_false_iff, Z.ltb_ge, Z.ltb_lt, Z.eqb_eq,
    Z.leb_gt, Z.ltb_ge, equalsIgnoreParams_true, isAcceptedMime_true.
  assert (He1 : string_empty (claimedMime meta) = true <-> claimedMime meta = "").
  { destruct (claimedMime meta); simpl; split; congruence. }
  assert (He2 : empty (acceptedMimes cfg) = true <-> acceptedMimes cfg = []).
  { destruct (acceptedMimes cfg); simpl; split; congruence. }
  rewrite He1, He2.
  destruct (hasContentLength meta);
    destruct (decide (claimedMime meta = "")), (decide (acceptedMimes cfg = []));
    split; intros; destruct_and?; repeat split; intros;
    repeat match goal with
           | H : _ \/ _ |- _ => destruct H
           | H : ?P -> _, H' : ?P |- _ => specialize (H H')
           | H : true = true -> _ |- _ => specialize (H eq_refl)
           | H : _ /\ _ |- _ => destruct H
           end;
    try congruence; try lia; try contradiction; eauto;
    try (left; (congruence || lia)); try (right; (congruence || lia || eauto)).
Qed.

(** X7. The two validators only append: whatever list they are given comes
    back as a prefix, followed by what they report on an empty list; each
    adds at most two messages. *)
Theorem validators_append_only meta measuredSize limit detected accepted
        (errors : list string) :
  validateLengths meta measuredSize limit errors
  = (errors ++ validateLengths meta measuredSize limit [])%list
  /\ validateMime meta detected accepted errors
     = (errors ++ validateMime meta detected accepted [])%list
  /\ (length (validateLengths meta measuredSize limit []) <= 2)%nat
  /\ (length (validateMime meta detected accepted []) <= 2)%nat.
Proof.
  unfold validateLengths, validateMime, emplace_back.
  destruct (hasContentLength meta), (contentLength meta <? 0)%Z,
    (negb (measuredSize =? contentLength meta)%Z),
    ((0 <=? limit)%Z && (limit <? measuredSize)%Z),
    (negb (string_empty (claimedMime meta))
       && negb (equalsIgnoreParams (claimedMime meta) detected)),
    (negb (empty accepted) && negb (isAcceptedMime detected accepted));
    simpl; rewrite <- ?app_assoc, ?app_nil_r; repeat split; simpl; lia.
Qed.

(** X8. Acceptance does not depend on the order or the multiplicity of the
    accepted list: a concatenation is accepted when either part is, and
    rearranging the list changes nothing. *)
Theorem isAcceptedMime_order_free (detected : string) :
  (forall accepted1 accepted2,
      isAcceptedMime detected (accepted1 ++ accepted2)
      = isAcceptedMime detected accepted1 || isAcceptedMime detected accepted2)
  /\ (forall accepted accepted',
         accepted ≡ₚ accepted' ->
         isAcceptedMime detected accepted = isAcceptedMime detected accepted')
  /\ (forall candidate accepted,
         candidate ∈ accepted ->
         isAcceptedMime detected (candidate :: accepted)
         = isAcceptedMime detected accepted).
Proof.
  assert (Happ : forall accepted1 accepted2,
             isAcceptedMime detected (accepted1 ++ accepted2)
             = isAcceptedMime detected accepted1 || isAcceptedMime detected accepted2).
  { induction accepted1 as [|c l IH]; intros accepted2; simpl; [reflexivity|].
    destruct (equalsIgnoreParams detected c); [reflexivity | apply IH]. }
  split; [exact Happ|]. split.
  - intros accepted accepted' Hperm. apply eq_true_iff_eq.
    rewrite !isAcceptedMime_true.
    split; intros (c & Hin & Hc); exists c; split; try assumption.
    + by rewrite <- Hperm.
    + by rewrite Hperm.
  - intros candidate accepted Hin. apply eq_true_iff_eq.
    rewrite !isAcceptedMime_true.
    split; intros (c & Hc & Hs); exists c; split; try assumption.
    + apply elem_of_cons in Hc as [->|Hc]; assumption.
    + by right.
Qed.

Lemma isAcceptedMime_order_free_witness :
  isAcceptedMime "image/png" ["application/pdf"; "IMAGE/PNG; q=1"]
  = isAcceptedMime "image/png" ["IMAGE/PNG; q=1"; "application/pdf"]
  /\ isAcceptedMime "image/png" ["application/pdf"; "IMAGE/PNG; q=1"] = true.
Proof.
  split; [|reflexivity].
  apply (proj1 (proj2 (isAcceptedMime_order_free "image/png"))).
  apply perm_swap.
Defined.

(** ** The comparator, continued *)

Local Ltac by_char c := destruct c as [[] [] [] [] [] [] [] []].

Lemma discard_params_app_semicolon (l params : list ascii) :
  discard_params (l ++ ";"%char :: params) = discard_params l.
Proof.
  induction l as [|c l IH]; simpl; [reflexivity|].
  destruct (Ascii.eqb c ";"); [reflexivity | by rewrite IH].
Qed.

Lemma discard_params_space_app (ws l : list ascii) :
  Forall (fun c => isspace c = true) ws ->
  discard_params (ws ++ l) = (ws ++ discard_params l)%list.
Proof.
  induction 1 as [|c ws Hc Hws IH]; simpl; [reflexivity|].
  destruct (Ascii.eqb c ";") eqn:E; [|by rewrite IH].
  apply Ascii.eqb_eq in E. subst c. discriminate Hc.
Qed.

Lemma trim_leading_space_app (ws l : list ascii) :
  Forall (fun c => isspace c = true) ws ->
  trim_leading (ws ++ l) = trim_leading l.
Proof.
  induction 1 as [|c ws Hc Hws IH]; simpl; [reflexivity|].
  by rewrite <- isspace_is_whitespace, Hc.
Qed.

Lemma trim_leading_app_space (l ws : list ascii) :
  Forall (fun c => isspace c = true) ws ->
  trim_leading (l ++ ws) = []
  \/ trim_leading (l ++ ws) = (trim_leading l ++ ws)%list.
Proof.
  intros Hws. induction l as [|c l IH]; simpl.
  - left. rewrite <- (app_nil_r ws). rewrite trim_leading_space_app by assumption.
    reflexivity.
  - destruct (is_whitespace c); [exact IH | by right].
Qed.

Lemma trim_leading_nil_app (l ws : list ascii) :
  trim_leading (l ++ ws) = [] -> trim_leading l = [].
Proof.
  induction l as [|c l IH]; simpl; [reflexivity|].
  destruct (is_whitespace c); [exact IH | discriminate].
Qed.

Lemma trim_app_space (l ws : list ascii) :
  Forall (fun c => isspace c = true) ws -> trim (l ++ ws) = trim l.
Proof.
  intros Hws. unfold trim.
  destruct (trim_leading_app_space l ws Hws) as [Hnil|Happ].
  - rewrite Hnil, (trim_leading_nil_app _ _ Hnil). reflexivity.
  - rewrite Happ, rev_app_distr.
    rewrite trim_leading_space_app; [reflexivity|].
    apply Forall_forall. intros c Hin.
    rewrite Forall_forall in Hws. apply Hws.
    apply list_elem_of_In. apply list_elem_of_In in Hin. by apply in_rev.
Qed.

Lemma discard_params_app_space (l ws : list ascii) :
  Forall (fun c => isspace c = true) ws ->
  exists ws', Forall (fun c => isspace c = true) ws'
              /\ discard_params (l ++ ws) = (discard_params l ++ ws')%list.
Proof.
  intros Hws. induction l as [|c l IH]; simpl.
  - exists ws. split; [assumption|]. rewrite <- (app_nil_r ws) at 1.
    by rewrite discard_params_space_app, app_nil_r.
  - destruct (Ascii.eqb c ";").
    + exists []. split; [constructor | reflexivity].
    + destruct IH as (ws' & Hws' & ->). by exists ws'.
Qed.

Lemma tolower_is_semicolon c : Ascii.eqb (tolower c) ";" = Ascii.eqb c ";".
Proof. by_char c; reflexivity. Qed.

Lemma fold_case_tolower c : fold_case (tolower c) = fold_case c.
Proof. by_char c; reflexivity. Qed.

Lemma discard_params_tolower l :
  discard_params (map tolower l) = map tolower (discard_params l).
Proof.
  induction l as [|c l IH]; simpl; [reflexivity|].
  rewrite tolower_is_semicolon. destruct (Ascii.eqb c ";"); simpl; by rewrite ?IH.
Qed.

Lemma trim_leading_tolower l :
  trim_leading (map tolower l) = map tolower (trim_leading l).
Proof.
  induction l as [|c l IH]; simpl; [reflexivity|].
  rewrite <- !isspace_is_whitespace, isspace_tolower.
  destruct (isspace c); [exact IH | reflexivity].
Qed.

Lemma strip_chars_tolower l : strip_chars (map tolower l) = strip_chars l.
Proof.
  rewrite !strip_chars_normal. unfold trim.
  rewrite discard_params_tolower, trim_leading_tolower, <- map_rev,
    trim_leading_tolower, <- map_rev, map_map.
  apply map_ext. intros c. apply fold_case_tolower.
Qed.

(** X9. Parameters never matter: whatever follows a [;] that is appended to
    a content type is dropped by [stripMime], so the comparator treats the
    type with and without parameters as equal. *)
Theorem stripMime_ignores_parameters (mime params : string) :
  stripMime (mime ++ String ";" params) = stripMime mime
  /\ equalsIgnoreParams (mime ++ String ";" params) mime = true.
Proof.
  assert (Heq : stripMime (mime ++ String ";" params) = stripMime mime).
  { rewrite !stripMime_chars, list_ascii_of_string_app. f_equal.
    rewrite !strip_chars_normal. cbn [list_ascii_of_string].
    by rewrite discard_params_app_semicolon. }
  split; [exact Heq | by apply equalsIgnoreParams_true].
Qed.

(** X10. White space around a content type never matters: [stripMime] gives
    the same result with a run of white space put before or after the
    string. *)
Theorem stripMime_ignores_surrounding_space (mime spaces : string) :
  all_space spaces ->
  stripMime (spaces ++ mime) = stripMime mime
  /\ stripMime (mime ++ spaces) = stripMime mime.
Proof.
  unfold all_space. intros Hws.
  rewrite !stripMime_chars, !list_ascii_of_string_app, !strip_chars_normal.
  split; f_equal; f_equal.
  - rewrite discard_params_space_app by assumption.
    unfold trim. by rewrite trim_leading_space_app.
  - destruct (discard_params_app_space (list_ascii_of_string mime) _ Hws)
      as (ws' & Hws' & ->).
    by apply trim_app_space.
Qed.

Lemma stripMime_ignores_surrounding_space_witness :
  stripMime (" " ++ "Text/Plain; q=1") = stripMime "Text/Plain; q=1"
  /\ stripMime ("Text/Plain; q=1" ++ " ") = stripMime "Text/Plain; q=1".
Proof.
  apply (stripMime_ignores_surrounding_space "Text/Plain; q=1" " ").
  unfold all_space. simpl. by repeat constructor.
Defined.

(** X11. Letter case never matters: lower-casing a content type first does
    not change what [stripMime] returns, so two strings with the same
    lower-case form are equal for the comparator. *)
Theorem stripMime_ignores_case :
  (forall mime, stripMime (lowercase mime) = stripMime mime)
  /\ (forall lhs rhs, lowercase lhs = lowercase rhs ->
                      equalsIgnoreParams lhs rhs = true).
Proof.
  assert (Hlow : forall mime, stripMime (lowercase mime) = stripMime mime).
  { intros mime. unfold lowercase.
    by rewrite !stripMime_chars, list_ascii_of_string_of_list_ascii, strip_chars_tolower. }
  split; [exact Hlow|].
  intros lhs rhs Hsame. apply equalsIgnoreParams_true.
  by rewrite <- (Hlow lhs), <- (Hlow rhs), Hsame.
Qed.

Lemma stripMime_ignores_case_witness :
  equalsIgnoreParams "Application/PDF" "application/pdf" = true.
Proof.
  apply (proj2 stripMime_ignores_case "Application/PDF" "application/pdf").
  reflexivity.
Defined.

Lemma length_trim_leading l : (length (trim_leading l) <= length l)%nat.
Proof.
  induction l as [|c l IH]; simpl; [lia|].
  destruct (is_whitespace c); simpl; lia.
Qed.

Lemma length_discard_params l : (length (discard_params l) <= length l)%nat.
Proof.
  induction l as [|c l IH]; simpl; [lia|].
  destruct (Ascii.eqb c ";"); simpl; lia.
Qed.

(** X12. What [stripMime] returns is never longer than its argument and is
    in normal form: it holds no [;], neither begins nor ends with white
    space, and [tolower] leaves each of its characters alone. *)
Theorem stripMime_output (mime : string) :
  (String.length (stripMime mime) <= String.length mime)%nat
  /\ is_stripped (list_ascii_of_string (stripMime mime)).
Proof.
  rewrite stripMime_chars, list_ascii_of_string_of_list_ascii.
  split; [|apply strip_chars_stripped].
  rewrite length_string_of_list_ascii, strip_chars_normal, length_map.
  unfold trim. rewrite length_rev.
  etransitivity; [apply length_trim_leading|]. rewrite length_rev.
  etransitivity; [apply length_trim_leading|].
  etransitivity; [apply length_discard_params|].
  rewrite <- (string_of_list_ascii_of_string mime) at 2.
  by rewrite length_string_of_list_ascii.
Qed.

(** ** The type sniffer, continued *)

Lemma detectMime_values (bytes : list byte) :
  detectMime bytes = "application/pdf"
  \/ detectMime bytes = "image/png"
  \/ detectMime bytes
     = "application/vnd.openxmlformats-officedocument.wordprocessingml.document"
  \/ detectMime bytes = "application/octet-stream".
Proof.
  unfold detectMime.
  repeat match goal with
         | |- context [if ?c then _ else _] => destruct c
         end; tauto.
Qed.

(** X13. [detectMime] answers with one of four type names, each already in
    the comparator's normal form; so a claimed type matches the detected one
    exactly when its stripped form is the detected name itself. *)
Theorem detectMime_canonical (bytes : list byte) :
  detectMime bytes ∈ [ "application/pdf"; "image/png";
                       "application/vnd.openxmlformats-officedocument.wordprocessingml.document";
                       "application/octet-stream" ]
  /\ stripMime (detectMime bytes) = detectMime bytes
  /\ (forall claimed,
         equalsIgnoreParams claimed (detectMime bytes) = true
         <-> stripMime claimed = detectMime bytes).
Proof.
  assert (Hstrip : stripMime (detectMime bytes) = detectMime bytes).
  { destruct (detectMime_values bytes) as [-> | [-> | [-> | ->]]]; reflexivity. }
  split; [|split; [exact Hstrip|]].
  - rewrite !elem_of_cons. pose proof (detectMime_values bytes). tauto.
  - intros claimed. by rewrite equalsIgnoreParams_true, Hstrip.
Qed.

Lemma equal_take (range1 range2 : list byte) (n : nat) :
  (length range1 <= n)%nat -> equal range1 (take n range2) = equal range1 range2.
Proof.
  revert range2 n. induction range1 as [|x r1 IH]; intros range2 n Hn; [reflexivity|].
  destruct n as [|n]; [simpl in Hn; lia|].
  destruct range2 as [|y r2]; [reflexivity|].
  simpl. rewrite IH by (simpl in Hn; lia). reflexivity.
Qed.

(** X14. [detectMime] never looks beyond the first 4096 bytes: it gives the
    same answer on a buffer and on its first 4096 bytes, hence on any two
    buffers that agree there. *)
Theorem detectMime_first_4096 :
  (forall bytes, detectMime bytes = detectMime (take 4096 bytes))
  /\ (forall bytes bytes',
         take 4096 bytes = take 4096 bytes' -> detectMime bytes = detectMime bytes').
Proof.
  assert (Htake : forall bytes, detectMime bytes = detectMime (take 4096 bytes)).
  { intros bytes. unfold detectMime.
    assert (H4 : (4 <=? size (take 4096 bytes))%N = (4 <=? size bytes)%N).
    { apply eq_true_iff_eq. rewrite !N.leb_le. unfold size. rewrite length_take. lia. }
    assert (H8 : (8 <=? size (take 4096 bytes))%N = (8 <=? size bytes)%N).
    { apply eq_true_iff_eq. rewrite !N.leb_le. unfold size. rewrite length_take. lia. }
    assert (Hscan : take (N.to_nat (N.min (size (take 4096 bytes)) 4096)) (take 4096 bytes)
                    = take (N.to_nat (N.min (size bytes) 4096)) bytes).
    { rewrite take_take. f_equal. unfold size. rewrite length_take. lia. }
    rewrite H4, H8, Hscan, equal_take by (simpl; lia).
    rewrite !lookup_total_take_lt by lia. reflexivity. }
  split; [exact Htake|].
  intros bytes bytes' Hsame. by rewrite (Htake bytes), (Htake bytes'), Hsame.
Qed.

Lemma detectMime_first_4096_witness :
  detectMime (sample_pdf ++ replicate 4096 x00 ++ [x01])
  = detectMime (sample_pdf ++ replicate 4096 x00 ++ [x02]).
Proof.
  apply (proj2 detectMime_first_4096).
  vm_compute. reflexivity.
Defined.

(** ** The digest engine, continued *)

(** X15. The compression function reads exactly the first 64 bytes behind its
    pointer: blocks that agree there give the same state.  Whatever state and
    block it is given, it returns eight words that fit a [uint32_t]. *)
Theorem sha256ProcessBlock_footprint (state : list Z) (block block' : list byte) :
  take 64 block = take 64 block' ->
  sha256ProcessBlock state block = sha256ProcessBlock state block'
  /\ Forall is_u32 (sha256ProcessBlock state block)
  /\ length (sha256ProcessBlock state block) = 8%nat.
Proof.
  intros Hblock. split; [|apply sha256ProcessBlock_words].
  by rewrite <- (sha256ProcessBlock_take state block),
    <- (sha256ProcessBlock_take state block'), Hblock.
Qed.

Lemma sha256ProcessBlock_footprint_witness :
  sha256ProcessBlock sha256StateInit (replicate 64 x00 ++ [x01])
  = sha256ProcessBlock sha256StateInit (replicate 64 x00 ++ [x02])
  /\ Forall is_u32 (sha256ProcessBlock sha256StateInit (replicate 64 x00 ++ [x01]))
  /\ length (sha256ProcessBlock sha256StateInit (replicate 64 x00 ++ [x01])) = 8%nat.
Proof.
  apply (sha256ProcessBlock_footprint sha256StateInit
           (replicate 64 x00 ++ [x01]) (replicate 64 x00 ++ [x02])).
  reflexivity.
Defined.

(** X16. The block loop of [sha256Hex] stops with [processed] at the largest
    multiple of 64 within the data, having handled every whole block, so
    fewer than 64 bytes remain; the marker byte and the eight length bytes
    then all land inside the 128-byte final buffer, the length bytes after
    the marker. *)
Theorem sha256Blocks_bounds (data : list byte) :
  (size data + 64 < size_t_modulus)%N ->
  let '(state, processed) := sha256Blocks (length data) data sha256StateInit 0%N in
  let remaining := (size data - processed)%N in
  let paddingIndex :=
    (if remaining + 9 <=? blockSize then blockSize - 8 else 2 * blockSize - 8)%N in
  processed = (64 * (size data / 64))%N
  /\ state = sha256_blocks (length data / 64) data sha256StateInit
  /\ (remaining < 64)%N
  /\ (remaining < paddingIndex)%N
  /\ (paddingIndex + 8 <= 128)%N
  /\ (paddingIndex = 56 <-> remaining <= 55)%N.
Proof.
  intros Hsize.
  set (q := (length data / 64)%nat).
  pose proof (Nat.div_mod_eq (length data) 64) as Hdm.
  pose proof (Nat.mod_upper_bound (length data) 64 ltac:(lia)) as Hr.
  fold q in Hdm.
  rewrite (sha256Blocks_spec q (length data) data sha256StateInit 0%N);
    [| exact Hsize | unfold size; lia | lia].
  rewrite drop_0. cbv beta iota zeta.
  assert (Hq : (size data / 64 = N.of_nat q)%N).
  { unfold size. symmetry. apply (N.div_unique _ _ _ (N.of_nat (length data mod 64))); lia. }
  rewrite Hq.
  assert (Hrem : (size data - (0 + 64 * N.of_nat q) < 64)%N) by (unfold size; lia).
  unfold blockSize.
  destruct (size data - (0 + 64 * N.of_nat q) + 9 <=? 64)%N eqn:Hc;
    [apply N.leb_le in Hc | apply N.leb_gt in Hc];
    repeat split; try reflexivity; try lia.
Qed.

Lemma sha256Blocks_bounds_witness :
  let '(state, processed) :=
    sha256Blocks (length sample_two_blocks) sample_two_blocks sha256StateInit 0%N in
  let remaining := (size sample_two_blocks - processed)%N in
  let paddingIndex :=
    (if remaining + 9 <=? blockSize then blockSize - 8 else 2 * blockSize - 8)%N in
  processed = (64 * (size sample_two_blocks / 64))%N
  /\ state = sha256_blocks (length sample_two_blocks / 64) sample_two_blocks sha256StateInit
  /\ (remaining < 64)%N
  /\ (remaining < paddingIndex)%N
  /\ (paddingIndex + 8 <= 128)%N
  /\ (paddingIndex = 56 <-> remaining <= 55)%N.
Proof.
  apply (sha256Blocks_bounds sample_two_blocks). reflexivity.
Defined.

Lemma is_u32_high_bits v j : is_u32 v -> (32 <= j)%Z -> Z.testbit v j = false.
Proof.
  intros Hv Hj. rewrite <- (Z.mod_small v (2 ^ 32)) by exact Hv.
  apply Z.mod_pow2_bits_high. lia.
Qed.

Lemma is_u32_of_bits r :
  (0 <= r)%Z -> (forall i, (32 <= i)%Z -> Z.testbit r i = false) -> is_u32 r.
Proof.
  intros Hr Hbits. unfold is_u32.
  assert (Hmod : (r mod 2 ^ 32 = r)%Z).
  { apply Z.bits_inj'. intros i Hi.
    destruct (Z_lt_le_dec i 32) as [Hlt|Hge].
    - apply Z.mod_pow2_bits_low. lia.
    - rewrite Z.mod_pow2_bits_high by lia. symmetry. by apply Hbits. }
  rewrite <- Hmod. apply Z.mod_pos_bound. reflexivity.
Qed.

(** Bit [i] of a rotated word is bit [i + bits] of the word, cyclically. *)
Lemma rotr_testbit value bits i :
  is_u32 value -> (0 < bits < 32)%Z -> (0 <= i)%Z ->
  Z.testbit (rotr value bits) i
  = if (i <? 32)%Z then Z.testbit value ((i + bits) mod 32) else false.
Proof.
  intros Hv Hb Hi. unfold rotr, u32.
  rewrite Z.lor_spec, Z.shiftr_spec by lia.
  destruct (i <? 32)%Z eqn:Hlt.
  - apply Z.ltb_lt in Hlt.
    rewrite Z.mod_pow2_bits_low, Z.shiftl_spec by lia.
    destruct (Z_lt_le_dec (i + bits) 32) as [Hs|Hs].
    + rewrite (Z.testbit_neg_r _ (i - (32 - bits))) by lia.
      rewrite Z.mod_small by lia. apply orb_false_r.
    + rewrite (is_u32_high_bits value (i + bits)) by (assumption || lia).
      simpl. f_equal. Z.to_euclidean_division_equations. lia.
  - apply Z.ltb_ge in Hlt.
    rewrite Z.mod_pow2_bits_high by lia.
    rewrite (is_u32_high_bits value (i + bits)) by (assumption || lia).
    reflexivity.
Qed.

Lemma rotr_is_u32 value bits :
  is_u32 value -> (0 < bits < 32)%Z -> is_u32 (rotr value bits).
Proof.
  intros Hv Hb. apply is_u32_of_bits.
  - unfold rotr, u32. apply Z.lor_nonneg. split.
    + apply Z.shiftr_nonneg. apply Hv.
    + apply Z.mod_pos_bound. reflexivity.
  - intros i Hi. rewrite rotr_testbit by (assumption || lia).
    assert (Hlt : (i <? 32)%Z = false) by (apply Z.ltb_ge; lia).
    by rewrite Hlt.
Qed.

(** X17. On 32-bit words and a rotation count strictly between 0 and 32
    (the only counts the code uses), [rotr] is a rotation: the result is a
    32-bit word whose bit [i] is bit [(i + bits) mod 32] of the argument, and
    rotating on by [32 - bits] gives the argument back. *)
Theorem rotr_rotation (value bits : Z) :
  is_u32 value -> (0 < bits < 32)%Z ->
  is_u32 (rotr value bits)
  /\ (forall i, (0 <= i < 32)%Z ->
                Z.testbit (rotr value bits) i = Z.testbit value ((i + bits) mod 32))
  /\ rotr (rotr value bits) (32 - bits) = value.
Proof.
  intros Hv Hb.
  pose proof (rotr_is_u32 value bits Hv Hb) as Hr.
  split; [exact Hr|]. split.
  - intros i Hi. rewrite rotr_testbit by (assumption || lia).
    assert (Hlt : (i <? 32)%Z = true) by (apply Z.ltb_lt; lia).
    by rewrite Hlt.
  - apply Z.bits_inj'. intros i Hi.
    rewrite rotr_testbit by (assumption || lia).
    destruct (i <? 32)%Z eqn:Hlt.
    + apply Z.ltb_lt in Hlt.
      rewrite rotr_testbit
        by (assumption || (try (Z.to_euclidean_division_equations; lia))).
      assert (Hj : ((i + (32 - bits)) mod 32 <? 32)%Z = true).
      { apply Z.ltb_lt. Z.to_euclidean_division_equations. lia. }
      rewrite Hj. f_equal. Z.to_euclidean_division_equations. lia.
    + apply Z.ltb_ge in Hlt. symmetry. by apply is_u32_high_bits.
Qed.

Lemma rotr_rotation_witness :
  is_u32 (rotr 0x80000001 7)
  /\ (forall i, (0 <= i < 32)%Z ->
                Z.testbit (rotr 0x80000001 7) i = Z.testbit 0x80000001 ((i + 7) mod 32))
  /\ rotr (rotr 0x80000001 7) (32 - 7) = 0x80000001%Z.
Proof.
  apply (rotr_rotation 0x80000001 7); unfold is_u32; lia.
Defined.

Lemma hex_digit_value_hexDigit d :
  (0 <= d < 16)%Z -> hex_digit_value (hexDigit d) = d.
Proof.
  intros Hd.
  assert (Hcases : (d = 0 \/ d = 1 \/ d = 2 \/ d = 3 \/ d = 4 \/ d = 5 \/ d = 6 \/ d = 7
                    \/ d = 8 \/ d = 9 \/ d = 10 \/ d = 11 \/ d = 12 \/ d = 13
                    \/ d = 14 \/ d = 15)%Z) by lia.
  repeat (destruct Hcases as [->|Hcases]; [reflexivity|]).
  subst d. reflexivity.
Qed.

Lemma hex_value_snoc digits c :
  hex_value (digits ++ [c]) = (16 * hex_value digits + hex_digit_value c)%Z.
Proof. unfold hex_value. by rewrite fold_left_app. Qed.

Lemma hex_value_nibbles k :
  forall n, (0 <= n)%Z -> hex_value (nibbles k n) = (n mod 16 ^ Z.of_nat k)%Z.
Proof.
  induction k as [|k IH]; intros n Hn.
  - simpl. by rewrite Z.mod_1_r.
  - cbn [nibbles]. rewrite hex_value_snoc, IH by (apply Z.div_pos; lia).
    rewrite hex_digit_value_hexDigit by (apply Z.mod_pos_bound; lia).
    rewrite Nat2Z.inj_succ, Z.pow_succ_r by lia.
    rewrite Z.rem_mul_r by lia. lia.
Qed.

Lemma concat_hex_words_inj (ws ws' : list Z) :
  Forall is_u32 ws -> Forall is_u32 ws' -> length ws = length ws' ->
  concat (map putHexWord ws) = concat (map putHexWord ws') -> ws = ws'.
Proof.
  intros Hws. revert ws'.
  induction Hws as [|w ws Hw Hws IH]; intros [|w' ws'] Hws' Hlen Heq;
    try discriminate Hlen; [reflexivity|].
  apply Forall_cons in Hws' as [Hw' Hws'].
  cbn [map concat] in Heq.
  rewrite (putHexWord_nibbles w), (putHexWord_nibbles w') in Heq by assumption.
  apply app_inj_1 in Heq as [Hhead Htail]; [|by rewrite !length_nibbles].
  f_equal.
  - apply (f_equal hex_value) in Hhead.
    rewrite !hex_value_nibbles in Hhead by (apply Hw || apply Hw').
    change (16 ^ Z.of_nat 8)%Z with (2 ^ 32)%Z in Hhead.
    by rewrite !Z.mod_small in Hhead by assumption.
  - apply IH; [assumption | by inversion Hlen | exact Htail].
Qed.

(** X18. The hexadecimal rendering loses nothing: for a 32-bit word the
    characters [setw(8)] prints are eight digits that denote the word again,
    so different words print differently; and two buffers (of bit length
    below 2^64) get the same hex string only if the eight words of their
    digests are the same. *)
Theorem putHexWord_round_trip :
  (forall word, is_u32 word ->
                length (putHexWord word) = 8%nat
                /\ hex_value (putHexWord word) = word)
  /\ (forall word word', is_u32 word -> is_u32 word' ->
                         putHexWord word = putHexWord word' -> word = word')
  /\ (forall data data',
         (8 * size data < 2 ^ 64)%N -> (8 * size data' < 2 ^ 64)%N ->
         sha256Hex data = sha256Hex data' -> sha256_digest data = sha256_digest data').
Proof.
  assert (Hrt : forall word, is_u32 word -> hex_value (putHexWord word) = word).
  { intros word Hw. rewrite putHexWord_nibbles, hex_value_nibbles by apply Hw.
    change (16 ^ Z.of_nat 8)%Z with (2 ^ 32)%Z. by apply Z.mod_small. }
  split; [|split].
  - intros word Hw. split; [|by apply Hrt].
    by rewrite putHexWord_nibbles, length_nibbles.
  - intros word word' Hw Hw' Heq.
    by rewrite <- (Hrt word Hw), <- (Hrt word' Hw'), Heq.
  - intros data data' Hd Hd' Heq.
    rewrite !sha256Hex_digest in Heq by assumption.
    apply (f_equal list_ascii_of_string) in Heq.
    rewrite !list_ascii_of_string_of_list_ascii in Heq.
    destruct (sha256_digest_words data) as [Hw Hl].
    destruct (sha256_digest_words data') as [Hw' Hl'].
    apply concat_hex_words_inj; try assumption. congruence.
Qed.

Lemma putHexWord_round_trip_witness :
  length (putHexWord 0x0000beef) = 8%nat /\ hex_value (putHexWord 0x0000beef) = 0x0000beef%Z.
Proof.
  apply (proj1 putHexWord_round_trip 0x0000beef). unfold is_u32. lia.
Defined.

Lemma to_N_byte_of_N n : Byte.to_N (byte_of_N n) = (n mod 256)%N.
Proof.
  unfold byte_of_N.
  destruct (Byte.of_N (n mod 256)) as [b|] eqn:Hb.
  - by apply Byte.to_of_N.
  - apply Byte.of_N_None_iff in Hb.
    pose proof (N.mod_lt n 256 ltac:(discriminate)). lia.
Qed.

Lemma div_step (n c : N) :
  c <> 0%N -> (n / c = 256 * (n / (c * 256)) + (n / c) mod 256)%N.
Proof.
  intros Hc. rewrite <- N.Div0.div_div. apply N.div_mod. discriminate.
Qed.

Lemma be_bytes_sum (n : N) :
  (n < 18446744073709551616)%N ->
  ((256 * (256 * (256 * (256 * (256 * (256 * (256 * (256 * 0 + (n / 72057594037927936) mod 256) + (n / 281474976710656) mod 256) + (n / 1099511627776) mod 256) + (n / 4294967296) mod 256) + (n / 16777216) mod 256) + (n / 65536) mod 256) + (n / 256) mod 256) + (n / 1) mod 256) = n)%N.
Proof.
  intros Hn.
  assert (H0 : (n / 1 = 256 * (n / 256) + (n / 1) mod 256)%N)
    by exact (div_step n 1 ltac:(discriminate)).
  assert (H1 : (n / 256 = 256 * (n / 65536) + (n / 256) mod 256)%N)
    by exact (div_step n 256 ltac:(discriminate)).
  assert (H2 : (n / 65536 = 256 * (n / 16777216) + (n / 65536) mod 256)%N)
    by exact (div_step n 65536 ltac:(discriminate)).
  assert (H3 : (n / 16777216 = 256 * (n / 4294967296) + (n / 16777216) mod 256)%N)
    by exact (div_step n 16777216 ltac:(discriminate)).
  assert (H4 : (n / 4294967296 = 256 * (n / 1099511627776) + (n / 4294967296) mod 256)%N)
    by exact (div_step n 4294967296 ltac:(discriminate)).
  assert (H5 : (n / 1099511627776 = 256 * (n / 281474976710656) + (n / 1099511627776) mod 256)%N)
    by exact (div_step n 1099511627776 ltac:(discriminate)).
  assert (H6 : (n / 281474976710656 = 256 * (n / 72057594037927936) + (n / 281474976710656) mod 256)%N)
    by exact (div_step n 281474976710656 ltac:(discriminate)).
  assert (H7 : (n / 72057594037927936 = 256 * (n / 18446744073709551616) + (n / 72057594037927936) mod 256)%N)
    by exact (div_step n 72057594037927936 ltac:(discriminate)).
  assert (H8 : (n / 18446744073709551616 = 0)%N) by (by apply N.div_small).
  rewrite H8 in H7. rewrite N.div_1_r in *.
  generalize dependent ((n / 72057594037927936) mod 256)%N. intros m7.
  generalize dependent (n / 72057594037927936)%N. intros x7.
  generalize dependent ((n / 281474976710656) mod 256)%N. intros m6.
  generalize dependent (n / 281474976710656)%N. intros x6.
  generalize dependent ((n / 1099511627776) mod 256)%N. intros m5.
  generalize dependent (n / 1099511627776)%N. intros x5.
  generalize dependent ((n / 4294967296) mod 256)%N. intros m4.
  generalize dependent (n / 4294967296)%N. intros x4.
  generalize dependent ((n / 16777216) mod 256)%N. intros m3.
  generalize dependent (n / 16777216)%N. intros x3.
  generalize dependent ((n / 65536) mod 256)%N. intros m2.
  generalize dependent (n / 65536)%N. intros x2.
  generalize dependent ((n / 256) mod 256)%N. intros m1.
  generalize dependent (n / 256)%N. intros x1.
  generalize dependent (n mod 256)%N. intros m0.
  intros. lia.
Qed.

Lemma be_value_be64 (n : N) : (n < 2 ^ 64)%N -> be_value (be64 n) = n.
Proof.
  intros Hn. unfold be64, be_value. cbn [seq map fold_left].
  rewrite !to_N_byte_of_N. exact (be_bytes_sum n Hn).
Qed.

(** X19. The loop that stores the bit length writes exactly eight bytes,
    starting at [paddingIndex], that denote the bit length as a big-endian
    number; the rest of the buffer is left as it was. *)
Theorem length_field_round_trip (bitLength : N) (paddingIndex : nat)
        (finalBlock : list byte) :
  (bitLength < 2 ^ 64)%N ->
  (paddingIndex + 8 <= length finalBlock)%nat ->
  let finalBlock' :=
    for_range 0 8
      (fun i fb =>
         <[ (paddingIndex + i)%nat :=
              byte_of_N (N.land (N.shiftr bitLength (56 - N.of_nat i * 8)) 0xFF) ]> fb)
      finalBlock in
  be_value (take 8 (drop paddingIndex finalBlock')) = bitLength
  /\ take paddingIndex finalBlock' = take paddingIndex finalBlock
  /\ drop (paddingIndex + 8) finalBlock' = drop (paddingIndex + 8) finalBlock
  /\ length finalBlock' = length finalBlock.
Proof.
  intros Hbits Hlen. cbv zeta.
  rewrite for_range_inserts by lia.
  rewrite be64_stores, !Nat.add_0_r.
  assert (Htake : length (take paddingIndex finalBlock) = paddingIndex)
    by (rewrite length_take; lia).
  repeat split.
  - rewrite drop_app_length' by (symmetry; exact Htake).
    rewrite take_app_length' by (symmetry; apply length_be64).
    by apply be_value_be64.
  - by rewrite take_app_length' by (symmetry; exact Htake).
  - rewrite app_assoc, drop_app_length'; [reflexivity|].
    rewrite length_app, Htake, length_be64. reflexivity.
  - rewrite !length_app, Htake, length_be64, length_drop. lia.
Qed.

Lemma length_field_round_trip_witness :
  let finalBlock' :=
    for_range 0 8
      (fun i fb =>
         <[ (56 + i)%nat :=
              byte_of_N (N.land (N.shiftr 448 (56 - N.of_nat i * 8)) 0xFF) ]> fb)
      (replicate 128 x00) in
  be_value (take 8 (drop 56 finalBlock')) = 448%N
  /\ take 56 finalBlock' = take 56 (replicate 128 x00)
  /\ drop (56 + 8) finalBlock' = drop (56 + 8) (replicate 128 x00)
  /\ length finalBlock' = length (replicate 128 x00).
Proof.
  apply (length_field_round_trip 448 56 (replicate 128 x00)).
  - reflexivity.
  - simpl. lia.
Defined.

(** ** The recording sink, continued *)

(** X20. [RecordingSink::persist] drains whatever is left of the source it is
    given: from a source at any cursor it records exactly the bytes from the
    cursor to the end and their count, together with the metadata and the
    result; nothing of what the sink recorded before survives. *)
Theorem RecordingSink_forwards_rest meta result (v : VectorByteSource.t)
        (sink : RecordingSink.t) :
  (size (VectorByteSource.data_ v) < size_t_modulus)%N ->
  (VectorByteSource.offset_ v <= size (VectorByteSource.data_ v))%N ->
  persist meta result v sink
  = Some (Returns tt,
          RecordingSink.mk meta result
            (drop (N.to_nat (VectorByteSource.offset_ v)) (VectorByteSource.data_ v))
            (size (VectorByteSource.data_ v) - VectorByteSource.offset_ v)).
Proof.
  intros Hsize Hoff.
  destruct (VectorByteSource_drains 4096 (length (VectorByteSource.data_ v)) eq_refl
              v (replicate 4096 x00) Hsize Hoff)
    as (rs & b' & Hrs & Hlen).
  { unfold size. lia. }
  destruct (VectorByteSource_Reads _ _ _ _ _ _ Hrs Hsize Hoff) as (_ & Ho & _ & Hb).
  simpl in Ho.
  assert (Heof : AtEof 4096 (VectorByteSource.mk (VectorByteSource.data_ v)
                                                 (size (VectorByteSource.data_ v))) b'
                       (VectorByteSource.mk (VectorByteSource.data_ v)
                                            (size (VectorByteSource.data_ v)))).
  { apply VectorByteSource_AtEof; simpl; try done. }
  unfold persist, RecordingSink_IngestSink, RecordingSink.persist.
  pose proof (persistLoop_returns rs _ _ _ _ _ [] 0%N Hrs Heof ltac:(lia)) as Hrun.
  apply (persistLoop_more_fuel _ (S (length (VectorByteSource.data_ v)))) in Hrun; [|lia].
  rewrite Hrun. cbn [app]. rewrite Hb.
  assert (Htot : total_of rs = (size (VectorByteSource.data_ v) - VectorByteSource.offset_ v)%N)
    by lia.
  rewrite N.add_0_l, Htot. do 3 f_equal.
  apply take_ge. rewrite length_drop. unfold size. lia.
Qed.

Lemma RecordingSink_forwards_rest_witness :
  persist sample_meta (mkIngestResult "" 0 "" true [])
          (VectorByteSource.mk sample_pdf 5) RecordingSink.initial
  = Some (Returns tt,
          RecordingSink.mk sample_meta (mkIngestResult "" 0 "" true [])
            (drop 5 sample_pdf) 10).
Proof.
  apply (RecordingSink_forwards_rest sample_meta (mkIngestResult "" 0 "" true [])
           (VectorByteSource.mk sample_pdf 5) RecordingSink.initial).
  - reflexivity.
  - vm_compute. discriminate.
Defined.
